(** * Synteny block detection of jcvi.algorithms.synteny

    A shallow embedding of [synteny_scan], [_score], [read_blast],
    [synteny_liftover] and the chaining loop of [mcscan]
    (src/algorithms/synteny.py), with the collaborators the module imports
    ([jcvi.utils.grouper.Grouper], [jcvi.utils.range.range_chain],
    scipy's [cKDTree.query]) modelled separately. *)

From Stdlib Require Import ZArith Lia.
From stdpp Require Import base list sorting relations gmap strings.
From Stdlib Require Import Ascii.

Open Scope Z_scope.

(** ** Points and Python's tuple order *)

(** A match [(x, y)]: [x] indexes the query order, [y] the subject order. *)
Definition point : Type := (Z * Z)%type.

(** Python compares tuples lexicographically. *)
Definition point_le (p q : point) : Prop :=
  p.1 < q.1 \/ (p.1 = q.1 /\ p.2 <= q.2).

#[global] Instance point_le_dec : RelDecision point_le.
Proof.
  intros p q. unfold point_le, Decision.
  destruct (Z_lt_dec p.1 q.1); [left; tauto|].
  destruct (Z.eq_dec p.1 q.1), (Z_le_dec p.2 q.2); [left; tauto|right; lia..].
Defined.

(** [list.sort()] and [sorted(...)] on a list of tuples. *)
Definition py_sort (l : list point) : list point := merge_sort point_le l.

(** ** The grouper *)

(** Modelled from the spec: [jcvi.utils.grouper.Grouper], the union-find
    structure keyed by point values (spec section 9) that is not part of
    the sources.  A grouper is its list of disjoint groups; [Grouper()]
    starts with no group and learns a value only when [join] is called on
    it.  [join a b] puts [a] and [b] into one group, merging the groups
    that already hold either of them. *)
Definition grouper : Type := list (list point).

Definition touches (a b : point) (c : list point) : bool :=
  bool_decide (a ∈ c \/ b ∈ c).

(** The group [join a b] leaves [a] and [b] in. *)
Definition join_group (g : grouper) (a b : point) : list point :=
  remove_dups (a :: b :: concat (filter (fun c => touches a b c = true) g)).

Definition join (g : grouper) (a b : point) : grouper :=
  join_group g a b :: filter (fun c => touches a b c = false) g.

(** ** [synteny_scan] *)

(** The inner loop [for j in xrange(i - 1, -1, -1)]: [prev] holds
    [points[i-1], ..., points[0]]. *)
Fixpoint scan_back (xdist ydist : Z) (g : grouper) (pi : point)
    (prev : list point) : grouper :=
  match prev with
  | [] => g
  | pj :: prev' =>
      let del_x := pi.1 - pj.1 in
      if Z.ltb xdist del_x then g
      else
        let del_y := pi.2 - pj.2 in
        if Z.ltb ydist (Z.abs del_y) then scan_back xdist ydist g pi prev'
        else scan_back xdist ydist (join g pi pj) pi prev'
  end.

(** The outer loop [for i in xrange(n)]: [seen] is the processed prefix,
    most recent first. *)
Fixpoint scan_all (xdist ydist : Z) (g : grouper) (seen rest : list point)
    : grouper :=
  match rest with
  | [] => g
  | p :: rest' =>
      scan_all xdist ydist (scan_back xdist ydist g p seen) (p :: seen) rest'
  end.

(** [_score]: [min(len(set(x)), len(set(y)))]. *)
Definition _score (cluster : list point) : Z :=
  Z.of_nat (Nat.min (length (remove_dups (map fst cluster)))
                    (length (remove_dups (map snd cluster)))).

(** The groups of the grouper once both loops are done, i.e. the clusters
    collected before the [min_score] filter. *)
Definition scan_groups (points : list point) (xdist ydist : Z) : grouper :=
  scan_all xdist ydist [] [] (py_sort points).

(** [synteny_scan(points, xdist, ydist, N)].  [points.sort()] sorts the
    caller's list in place, so the call returns the clusters together with
    the new contents of the caller's list. *)
Definition synteny_scan_st (points : list point) (xdist ydist N : Z)
    : list (list point) * list point :=
  let points' := py_sort points in
  let clusters := scan_all xdist ydist [] [] points' in
  (map py_sort (filter (fun c => N <= _score c) clusters), points').

Definition synteny_scan (points : list point) (xdist ydist N : Z)
    : list (list point) :=
  fst (synteny_scan_st points xdist ydist N).

(** ** [read_blast] *)

(** The fields of a [BlastLine] that [read_blast] reads or writes. *)
Record BlastLine := {
  query : string; subject : string;
  qseqid : string; sseqid : string;
  qi : Z; si : Z }.

(** A bed order: gene name to (position in the order, seqid of its line). *)
Abbreviation order := (gmap string (Z * string)).

(** The loop of [read_blast] over the rows of the blast file; [seen] is the
    set of [(query, subject)] keys met so far. *)
Fixpoint read_blast_rows (qorder sorder : order) (is_self : bool)
    (seen : gset (string * string)) (rows : list BlastLine) : list BlastLine :=
  match rows with
  | [] => []
  | b :: rows' =>
      match qorder !! query b, sorder !! subject b with
      | Some (qi0, q), Some (si0, s) =>
          let key := (query b, subject b) in
          if bool_decide (key ∈ seen)
          then read_blast_rows qorder sorder is_self seen rows'
          else
            let '(qi1, si1, q1, s1) :=
              if is_self && Z.ltb si0 qi0 then (si0, qi0, s, q)
              else (qi0, si0, q, s) in
            {| query := query b; subject := subject b;
               qseqid := q1; sseqid := s1; qi := qi1; si := si1 |}
              :: read_blast_rows qorder sorder is_self ({[key]} ∪ seen) rows'
      | _, _ => read_blast_rows qorder sorder is_self seen rows'
      end
  end.

Definition read_blast (rows : list BlastLine) (qorder sorder : order)
    (is_self : bool) : list BlastLine :=
  read_blast_rows qorder sorder is_self ∅ rows.

(** ** [synteny_liftover] *)

(** The Minkowski distance with [p=1]. *)
Definition l1_dist (a q : point) : Z := Z.abs (q.1 - a.1) + Z.abs (q.2 - a.2).

(** Scipy's [cKDTree(anchors).query(q, p=1, distance_upper_bound=ub)] with
    [k=1]: an anchor becomes the answer only when its distance is strictly
    below the current bound, which then shrinks to that distance.  [None]
    stands for the index [tree.n] (no neighbour within the bound).  The
    coordinates are integers, so the float distances are exact. *)
Fixpoint kd_query (anchors : list point) (i : nat) (q : point) (ub : Z)
    (best : option (Z * nat)) : option (Z * nat) :=
  match anchors with
  | [] => best
  | a :: anchors' =>
      let d := l1_dist a q in
      if Z.ltb d ub then kd_query anchors' (S i) q d (Some (d, i))
      else kd_query anchors' (S i) q ub best
  end.

(** [np.array(points).shape] for a list of rows: [(n, k)] when all rows
    have length [k], [(n,)] for an empty or ragged list. *)
Definition np_shape (rows : list (list Z)) : list nat :=
  match rows with
  | [] => [0%nat]
  | r :: _ =>
      if forallb (fun r' => Nat.eqb (length r') (length r)) rows
      then [length rows; length r] else [length rows]
  end.

(** A row of [ppoints] as a query point of the 2-d tree. *)
Definition row_point (r : list Z) : point :=
  match r with
  | x :: y :: _ => (x, y)
  | _ => (0, 0)
  end.

(** The final [for point, dist, idx in zip(points, dists, idxs)] loop. *)
Fixpoint emit_near (anchors : list point) (dist : Z)
    (points ppoints : list (list Z)) : list (list Z) :=
  match points, ppoints with
  | p :: points', pp :: ppoints' =>
      match kd_query anchors 0 (row_point pp) dist None with
      | None => emit_near anchors dist points' ppoints'
      | Some _ => p :: emit_near anchors dist points' ppoints'
      end
  | _, _ => []
  end.

(** [synteny_liftover(points, anchors, dist)], with [None] for a raised
    exception: [points.shape[1]] raises [IndexError] on a shape of length
    one, and a query of dimension other than 2 raises [ValueError]. *)
Definition synteny_liftover (points : list (list Z)) (anchors : list point)
    (dist : Z) : option (list (list Z)) :=
  match np_shape points !! 1%nat with
  | None => None
  | Some k =>
      if Nat.ltb k 2 then None
      else
        let ppoints := if Nat.ltb 2 k then map (take 2) points else points in
        Some (emit_near anchors dist points ppoints)
  end.

(** ** Chaining in [mcscan] *)

(** [jcvi.utils.range.Range]. *)
Record Range := {
  seqid : string; start : Z; end_ : Z; score : Z; id_ : Z }.

Definition overlap (a b : Range) : bool :=
  Z.ltb (start a) (end_ b) && Z.ltb (start b) (end_ a).

Fixpoint sublists {A} (l : list A) : list (list A) :=
  match l with
  | [] => [[]]
  | x :: l' => let s := sublists l' in map (cons x) s ++ s
  end.

Fixpoint pairwise_disjoint (l : list Range) : bool :=
  match l with
  | [] => true
  | x :: l' => forallb (fun y => negb (overlap x y)) l' && pairwise_disjoint l'
  end.

Definition total_score (l : list Range) : Z := foldr (fun r s => score r + s) 0 l.

(** Modelled from the spec: [jcvi.utils.range.range_chain], which is not
    part of the sources.  Following section 4.3 it returns one
    maximum-total-score subset of mutually non-overlapping ranges together
    with its score; here the first such subset in the enumeration of
    sublists. *)
Definition range_chain (ranges : list Range) : list Range * Z :=
  let best := foldl (fun best c => if Z.ltb (total_score best) (total_score c)
                                   then c else best)
                [] (filter (fun c => pairwise_disjoint c = true) (sublists ranges)) in
  (best, total_score best).

(** The [while ranges:] loop of [mcscan]; [iters_left] counts the passes
    that [iteration >= opts.iter] still allows. *)
Fixpoint chain_tracks (iters_left : nat) (ranges : list Range) : list (list Range) :=
  match iters_left with
  | O => []
  | S k =>
      match ranges with
      | [] => []
      | _ =>
          let '(selected, _) := range_chain ranges in
          let ids := map id_ selected in
          selected :: chain_tracks k
                        (filter (fun x => negb (bool_decide (id_ x ∈ ids))) ranges)
      end
  end.

Definition mcscan_tracks (ranges : list Range) (iter : Z) : list (list Range) :=
  chain_tracks (Z.to_nat iter) ranges.

(** Test inputs of the concrete scenarios. *)
Definition rA (s e sc i : Z) : Range :=
  {| seqid := "A"; start := s; end_ := e; score := sc; id_ := i |}.

Definition bl (q s : string) : BlastLine :=
  {| query := q; subject := s; qseqid := ""; sseqid := ""; qi := 0; si := 0 |}.

Definition ord_ab : order := <["a" := (0, "c1")]> (<["b" := (1, "c1")]> ∅).
Definition ord_abc : order :=
  <["a" := (0, "c1")]> (<["b" := (1, "c1")]> (<["c" := (2, "c1")]> ∅)).

(** ** [group_hits] and [batch_scan] *)

(** A chromosome pair [(qseqid, sseqid)]. *)
Definition chr_pair : Type := (string * string)%type.

(** [all_hits[k].append(p)] on a [collections.defaultdict(list)]. *)
Definition add_hit (m : gmap chr_pair (list point)) (k : chr_pair) (p : point)
    : gmap chr_pair (list point) :=
  <[k := default [] (m !! k) ++ [p]]> m.

Definition group_hits (blasts : list BlastLine) : gmap chr_pair (list point) :=
  foldl (fun m b => add_hit m (qseqid b, sseqid b) (qi b, si b)) ∅ blasts.

(** Python's order on a pair of strings. *)
Definition chr_pair_le (k1 k2 : chr_pair) : Prop :=
  String.ltb k1.1 k2.1 = true \/ (k1.1 = k2.1 /\ String.leb k1.2 k2.2 = true).

#[global] Instance chr_pair_le_dec : RelDecision chr_pair_le.
Proof. intros k1 k2. unfold chr_pair_le. apply _. Defined.

(** [batch_scan(points, xdist, ydist, N)]: [synteny_scan] on the points of
    each chromosome pair, in sorted key order, results concatenated. *)
Definition batch_scan (blasts : list BlastLine) (xdist ydist N : Z)
    : list (list point) :=
  let chr_pair_points := group_hits blasts in
  concat (map (fun k => synteny_scan (default [] (chr_pair_points !! k)) xdist ydist N)
              (merge_sort chr_pair_le (map fst (map_to_list chr_pair_points)))).

(** ** [read_anchors] *)

(** The whitespace of Python 2's [str.split()]. *)
Definition py_space (c : Ascii.ascii) : bool :=
  match Ascii.nat_of_ascii c with
  | 9 | 10 | 11 | 12 | 13 | 32 => true
  | _ => false
  end%nat.

(** [str.split()]: the maximal runs of non-whitespace characters; [cur] is
    the current run, reversed. *)
Fixpoint split_aux (s : string) (cur : list Ascii.ascii) : list string :=
  match s with
  | EmptyString =>
      match cur with [] => [] | _ => [String.string_of_list_ascii (rev cur)] end
  | String c s' =>
      if py_space c then
        match cur with
        | [] => split_aux s' []
        | _ => String.string_of_list_ascii (rev cur) :: split_aux s' []
        end
      else split_aux s' (c :: cur)
  end.

Definition py_split (s : string) : list string := split_aux s [].

(** The loop of [read_anchors] over the lines of the anchor file; [None]
    for a raised exception: [row[0]] on an empty line ([IndexError]) and
    [a, b = row.split()] on a line without exactly two fields
    ([ValueError]). *)
Fixpoint read_anchors_rows (qorder sorder : order) (m : gmap chr_pair (list point))
    (rows : list string) : option (gmap chr_pair (list point)) :=
  match rows with
  | [] => Some m
  | row :: rows' =>
      match row with
      | EmptyString => None
      | String c _ =>
          if Ascii.eqb c "#"%char then read_anchors_rows qorder sorder m rows'
          else
            match py_split row with
            | [a; b] =>
                match qorder !! a, sorder !! b with
                | Some (qi0, q), Some (si0, s) =>
                    read_anchors_rows qorder sorder (add_hit m (q, s) (qi0, si0)) rows'
                | _, _ => read_anchors_rows qorder sorder m rows'
                end
            | _ => None
            end
      end
  end.

Definition read_anchors (rows : list string) (qorder sorder : order)
    : option (gmap chr_pair (list point)) :=
  read_anchors_rows qorder sorder ∅ rows.

(** ** [get_blocks] and the spans of [breakpoint] and [depth] *)

(** The fields of a [BedLine] that [get_blocks] reads. *)
Record BedLine := { accn : string; bstart : Z; bend : Z }.

(** A test bed line. *)
Definition bed (a : string) (s e : Z) : BedLine := {| accn := a; bstart := s; bend := e |}.

Fixpoint drop_through_dot (l : list Ascii.ascii) : option (list Ascii.ascii) :=
  match l with
  | [] => None
  | c :: l' => if Ascii.eqb c "."%char then Some l' else drop_through_dot l'
  end.

(** [s.rsplit(".", 1)[0]]: [s] up to its last dot, or [s] without a dot. *)
Definition rsplit_dot_head (s : string) : string :=
  match drop_through_dot (rev (String.list_ascii_of_string s)) with
  | None => s
  | Some r => String.string_of_list_ascii (rev r)
  end.

(** The points of [get_blocks]: [y = (b.start + b.end) / 2] with Python 2's
    floor division. *)
Fixpoint block_points (ord : order) (bs : list BedLine) : list point :=
  match bs with
  | [] => []
  | b :: bs' =>
      match ord !! rsplit_dot_head (accn b) with
      | None => block_points ord bs'
      | Some (x, _) => (x, (bstart b + bend b) `div` 2) :: block_points ord bs'
      end
  end.

Definition get_blocks (ord : order) (bs : list BedLine) (xdist ydist N : Z)
    : list (list point) :=
  synteny_scan (block_points ord bs) xdist ydist N.

(** [min(l)] and [max(l)]; [None] for the [ValueError] on an empty list. *)
Definition py_min (l : list Z) : option Z :=
  match l with [] => None | x :: l' => Some (foldl Z.min x l') end.

Definition py_max (l : list Z) : option Z :=
  match l with [] => None | x :: l' => Some (foldl Z.max x l') end.

(** [xx, yy = zip( *block); (scaffold, min(yy), max(yy))] in [breakpoint];
    on an empty block the unpacking raises. *)
Definition block_span (scaffold : string) (block : list point)
    : option (string * Z * Z) :=
  match py_min (map snd block), py_max (map snd block) with
  | Some lo, Some hi => Some (scaffold, lo, hi)
  | _, _ => None
  end.

(** [q = [qorder[x] for x in q]; (min(q)[0], max(q)[0])] in [depth]:
    [None] for the [KeyError] of an unmapped gene or an empty block. *)
Definition depth_range (ord : order) (genes : list string) : option (Z * Z) :=
  match mapM (fun x => ord !! x) genes with
  | None => None
  | Some q =>
      match py_min (map fst q), py_max (map fst q) with
      | Some lo, Some hi => Some (lo, hi)
      | _, _ => None
      end
  end.

(** ** The rows printed by [mcscan] *)

(** [block_pairs]: block id to [dict(zip(q, s))]. *)
Abbreviation block_map := (gmap Z (gmap string string)).

(** A test [block_pairs]. *)
Definition bp_test : block_map :=
  <[0 := <["g1" := "h1"]> ∅]> (<[1 := <["g2" := "h2"]> ∅]> ∅).

(** The inner [for tid in track_ids] loop.  [anchor] is the Python variable,
    which keeps its value from one track to the next ([None] while unbound);
    the outer [None] is the [KeyError] of [block_pairs[tid]]. *)
Fixpoint track_anchor (bp : block_map) (gid : string) (tids : list Z)
    (anchor : option string) : option (option string) :=
  match tids with
  | [] => Some anchor
  | tid :: tids' =>
      match bp !! tid with
      | None => None
      | Some pairs =>
          let a := default "." (pairs !! gid) in
          if String.eqb a "." then track_anchor bp gid tids' (Some a)
          else Some (Some a)
      end
  end.

(** The [for track in tracks] loop building [atoms]; reading an unbound
    [anchor] raises [NameError]. *)
Fixpoint row_atoms (bp : block_map) (gid : string) (ascii : bool)
    (tracks : list (list Z)) (anchor : option string) : option (list string) :=
  match tracks with
  | [] => Some []
  | t :: ts =>
      match track_anchor bp gid t anchor with
      | Some (Some a) =>
          let a' := if ascii && negb (String.eqb a ".") then "x" else a in
          match row_atoms bp gid ascii ts (Some a') with
          | Some atoms => Some (a' :: atoms)
          | None => None
          end
      | _ => None
      end
  end.

(** ** The blocks of [mcscan] *)

(** [dict(zip(q, s))]: the shorter list bounds the pairs, and a later pair
    overrides an earlier one with the same gene. *)
Definition zip_dict (q s : list string) : gmap string string :=
  foldl (fun m '(k, v) => <[k := v]> m) ∅ (zip q s).

(** The body of [for i, (q, s) in enumerate(ac.iter_blocks())] in
    [mcscan]: the side of the block that is on the bed is chosen by its
    first gene; [q.sort()] sorts the [(index, BedLine)] pairs, whose first
    components are the sorted indices; [None] for the [IndexError] of
    [q[0]] on an empty side and the [KeyError] of [order[x]]. *)
Definition mcscan_block (ord : order) (i : Z) (q s : list string)
    : option (gmap string string * Range) :=
  match q with
  | [] => None
  | q0 :: _ =>
      let '(q1, s1) := match ord !! q0 with None => (s, q) | Some _ => (q, s) end in
      let pairs := zip_dict q1 s1 in
      match mapM (fun x => ord !! x) q1 with
      | None => None
      | Some qs =>
          let idx := merge_sort Z.le (map fst qs) in
          match idx, last idx with
          | lo :: _, Some hi =>
              Some (pairs, {| seqid := "0"; start := lo; end_ := hi;
                              score := Z.of_nat (length q1); id_ := i |})
          | _, _ => None
          end
      end
  end.

(** ** The loop of [liftover] *)

(** A row of [np.array(hits)] for a hit [(qi, si)]. *)
Definition point_row (p : point) : list Z := [p.1; p.2].

(** [for chr_pair in sorted(all_anchors.keys())]: [all_hits] is a
    [defaultdict(list)], so a pair without hits reads as [[]] and is
    skipped by [if not len(hits): continue]; [None] for an exception raised
    by [synteny_liftover]. *)
Fixpoint liftover_loop (all_hits all_anchors : gmap chr_pair (list point)) (dist : Z)
    (keys : list chr_pair) : option (list (list Z)) :=
  match keys with
  | [] => Some []
  | k :: keys' =>
      let hits := map point_row (default [] (all_hits !! k)) in
      let anchors := default [] (all_anchors !! k) in
      if Nat.eqb (length hits) 0 then liftover_loop all_hits all_anchors dist keys'
      else
        match synteny_liftover hits anchors dist with
        | None => None
        | Some lifted =>
            match liftover_loop all_hits all_anchors dist keys' with
            | None => None
            | Some rest => Some (lifted ++ rest)
            end
        end
  end.

Definition liftover_pairs (all_hits all_anchors : gmap chr_pair (list point)) (dist : Z)
    : option (list (list Z)) :=
  liftover_loop all_hits all_anchors dist
    (merge_sort chr_pair_le (map fst (map_to_list all_anchors))).

(** The body of [liftover] without its printing: [read_blast], [group_hits]
    and [read_anchors], then the loop over the chromosome pairs. *)
Definition liftover_run (rows : list BlastLine) (anchor_rows : list string)
    (qorder sorder : order) (is_self : bool) (dist : Z) : option (list (list Z)) :=
  let all_hits := group_hits (read_blast rows qorder sorder is_self) in
  match read_anchors anchor_rows qorder sorder with
  | None => None
  | Some all_anchors => liftover_pairs all_hits all_anchors dist
  end.

(** ** Properties used in the statements *)

(** The [(query, subject)] key of a blast row, and both its names mapped. *)
Definition blast_key (b : BlastLine) : string * string := (query b, subject b).

Definition blast_mapped (qorder sorder : order) (b : BlastLine) : Prop :=
  is_Some (qorder !! query b) /\ is_Some (sorder !! subject b).

(** A line of an anchor file that [read_anchors] skips as a comment, and a
    line on which it raises. *)
Definition anchor_comment (row : string) : Prop := String.get 0 row = Some "#"%char.

Definition anchor_bad (row : string) : Prop :=
  row = EmptyString \/ (~ anchor_comment row /\ length (py_split row) <> 2%nat).

(** A string without a dot. *)
Definition no_dot (s : string) : Prop := "."%char ∉ String.list_ascii_of_string s.

(** Two points within both bounds of each other. *)
Definition close (xdist ydist : Z) (p q : point) : Prop :=
  Z.abs (p.1 - q.1) <= xdist /\ Z.abs (p.2 - q.2) <= ydist.

(** A join [synteny_scan] may perform: both points are input points and
    within both bounds. *)
Definition link (points : list point) (xdist ydist : Z) (p q : point) : Prop :=
  p ∈ points /\ q ∈ points /\ close xdist ydist p q.

(** [a] and [b] lie in one group. *)
Definition same (g : grouper) (a b : point) : Prop :=
  exists c, c ∈ g /\ a ∈ c /\ b ∈ c.

Definition groups_disjoint (g : grouper) : Prop :=
  forall c1 c2 x, c1 ∈ g -> c2 ∈ g -> x ∈ c1 -> x ∈ c2 -> c1 = c2.

Definition xle (p q : point) : Prop := p.1 <= q.1.
Definition xge (p q : point) : Prop := q.1 <= p.1.

(** How many times [p] occurs in a list. *)
Definition occurrences (p : point) (l : list point) : nat :=
  length (filter (fun q => q = p) l).

(** ** The grouper *)

Section GrouperFacts.

Lemma elem_of_concat_groups (x : point) (ls : list (list point)) :
  x ∈ concat ls <-> exists l, l ∈ ls /\ x ∈ l.
Proof.
  rewrite list_elem_of_In, in_concat.
  split; intros [l [H1 H2]]; exists l; rewrite ?list_elem_of_In in *; tauto.
Qed.

Lemma touches_true a b c : touches a b c = true <-> a ∈ c \/ b ∈ c.
Proof. unfold touches. apply bool_decide_eq_true. Qed.

Lemma touches_false a b c : touches a b c = false <-> ~ (a ∈ c \/ b ∈ c).
Proof. unfold touches. apply bool_decide_eq_false. Qed.

Lemma elem_of_join_group g a b x :
  x ∈ join_group g a b <->
  x = a \/ x = b \/ exists c, c ∈ g /\ (a ∈ c \/ b ∈ c) /\ x ∈ c.
Proof.
  unfold join_group. rewrite elem_of_remove_dups, !elem_of_cons,
    elem_of_concat_groups.
  setoid_rewrite list_elem_of_filter. setoid_rewrite touches_true.
  naive_solver.
Qed.

Lemma elem_of_join g a b c :
  c ∈ join g a b <-> c = join_group g a b \/ (c ∈ g /\ ~ (a ∈ c \/ b ∈ c)).
Proof.
  unfold join. rewrite elem_of_cons, list_elem_of_filter, touches_false.
  tauto.
Qed.

Lemma join_same g a b : same (join g a b) a b.
Proof.
  exists (join_group g a b). rewrite elem_of_join, !elem_of_join_group. tauto.
Qed.

Lemma join_mono g a b x y : same g x y -> same (join g a b) x y.
Proof.
  intros (c & Hc & Hx & Hy).
  destruct (decide (a ∈ c \/ b ∈ c)) as [Ht|Ht].
  - exists (join_group g a b). rewrite elem_of_join, !elem_of_join_group.
    split; [tauto|]. split; right; right; eauto.
  - exists c. rewrite elem_of_join. tauto.
Qed.

Lemma join_disjoint g a b : groups_disjoint g -> groups_disjoint (join g a b).
Proof.
  intros Hd c1 c2 x H1 H2 Hx1 Hx2.
  rewrite elem_of_join in H1, H2.
  destruct H1 as [->|[H1 Hn1]], H2 as [->|[H2 Hn2]]; [done| | |eauto].
  - exfalso. apply elem_of_join_group in Hx1
      as [->|[->|(c & Hc & Hab & Hxc)]]; [tauto|tauto|].
    rewrite <- (Hd c c2 x) in Hn2 by done. tauto.
  - exfalso. apply elem_of_join_group in Hx2
      as [->|[->|(c & Hc & Hab & Hxc)]]; [tauto|tauto|].
    rewrite <- (Hd c c1 x) in Hn1 by done. tauto.
Qed.

Lemma join_nodup g a b : Forall NoDup g -> Forall NoDup (join g a b).
Proof.
  intros Hg. unfold join. constructor.
  - apply NoDup_remove_dups.
  - rewrite Forall_forall in Hg |- *. intros c Hc.
    apply Hg. rewrite list_elem_of_filter in Hc. tauto.
Qed.

End GrouperFacts.

(** ** Sorting *)

#[global] Instance point_le_total : Total point_le.
Proof. intros p q. unfold point_le. lia. Qed.

#[global] Instance point_le_trans : Transitive point_le.
Proof. intros p q r. unfold point_le. lia. Qed.

#[global] Instance point_le_antisymm : AntiSymm (=) point_le.
Proof.
  intros [p1 p2] [q1 q2]. unfold point_le. simpl. intros H1 H2.
  f_equal; lia.
Qed.

Lemma py_sort_perm (l : list point) : py_sort l ≡ₚ l.
Proof. apply merge_sort_Permutation. Qed.

Lemma elem_of_py_sort (l : list point) x : x ∈ py_sort l <-> x ∈ l.
Proof. by rewrite py_sort_perm. Qed.

Lemma py_sort_sorted (l : list point) : StronglySorted point_le (py_sort l).
Proof. apply Sorted_StronglySorted; [apply _|]. apply Sorted_merge_sort. apply _. Qed.

Lemma ss_xle (l : list point) : StronglySorted point_le l -> StronglySorted xle l.
Proof.
  induction 1 as [|p l Hs IH Hf]; constructor; [done|].
  rewrite Forall_forall in Hf |- *. intros q Hq. specialize (Hf q Hq).
  unfold point_le, xle in *. lia.
Qed.

Lemma ss_between {A} (R : A -> A -> Prop) l1 x l2 y l3 :
  StronglySorted R (l1 ++ x :: l2 ++ y :: l3) -> R x y.
Proof.
  induction l1 as [|z l1 IH]; simpl; intros Hs.
  - apply StronglySorted_inv in Hs as [_ Hf].
    rewrite Forall_forall in Hf. apply Hf. set_solver.
  - apply StronglySorted_inv in Hs as [Hs _]. auto.
Qed.

(** ** The two loops of [synteny_scan] *)

Section ScanFacts.

Variables xdist ydist : Z.

Lemma close_sym p q : close xdist ydist p q -> close xdist ydist q p.
Proof. unfold close. lia. Qed.

Lemma same_sym g p q : same g p q -> same g q p.
Proof. intros (c & ? & ? & ?). exists c. tauto. Qed.

(** An invariant of the grouper kept by every join of the inner loop. *)
Lemma scan_back_ind (P : grouper -> Prop) pi prev g :
  P g ->
  (forall g' pj, P g' -> pj ∈ prev -> pi.1 - pj.1 <= xdist ->
     Z.abs (pi.2 - pj.2) <= ydist -> P (join g' pi pj)) ->
  P (scan_back xdist ydist g pi prev).
Proof.
  revert g. induction prev as [|pj prev IH]; intros g Hg Hstep; simpl; [done|].
  destruct (Z.ltb_spec xdist (pi.1 - pj.1)); [done|].
  destruct (Z.ltb_spec ydist (Z.abs (pi.2 - pj.2))).
  - apply IH; [done|]. intros g' q ? Hq. apply Hstep; [done|set_solver].
  - apply IH.
    + apply Hstep; [done|set_solver|lia|lia].
    + intros g' q ? Hq. apply Hstep; [done|set_solver].
Qed.

(** An invariant kept by every join of both loops; a join is between a point
    and one that comes before it in the sorted list [L]. *)
Lemma scan_all_ind (P : grouper -> Prop) (L : list point) :
  forall rest seen g,
  L = reverse seen ++ rest ->
  P g ->
  (forall g' pi pj, P g' -> (exists l1 l2 l3, L = l1 ++ pj :: l2 ++ pi :: l3) ->
     pi.1 - pj.1 <= xdist -> Z.abs (pi.2 - pj.2) <= ydist ->
     P (join g' pi pj)) ->
  P (scan_all xdist ydist g seen rest).
Proof.
  induction rest as [|r rest IH]; intros seen g HL Hg Hstep; simpl; [done|].
  apply IH.
  - rewrite reverse_cons, <- app_assoc. exact HL.
  - apply scan_back_ind; [done|]. intros g' pj Hg' Hpj Hx Hy.
    apply Hstep; [done| |done|done].
    assert (Hpj' : pj ∈ reverse seen) by (rewrite elem_of_reverse; done).
    apply list_elem_of_split in Hpj' as (l1 & l2 & Hrev).
    exists l1, l2, rest. rewrite HL, Hrev, <- app_assoc. done.
  - exact Hstep.
Qed.

Lemma scan_back_mono pi prev g x y :
  same g x y -> same (scan_back xdist ydist g pi prev) x y.
Proof. intros H. apply scan_back_ind; auto using join_mono. Qed.

Lemma scan_all_mono seen rest g x y :
  same g x y -> same (scan_all xdist ydist g seen rest) x y.
Proof.
  intros H. apply (scan_all_ind (fun g' => same g' x y) (reverse seen ++ rest));
    auto using join_mono.
Qed.

(** The break of the inner loop never hides a point within the bounds. *)
Lemma scan_back_joins pi prev g q :
  StronglySorted xge prev -> (forall s, s ∈ prev -> s.1 <= pi.1) ->
  q ∈ prev -> close xdist ydist pi q ->
  same (scan_back xdist ydist g pi prev) pi q.
Proof.
  revert g. induction prev as [|pj prev IH]; intros g Hs Hle Hq Hc;
    [by apply elem_of_nil in Hq|].
  apply StronglySorted_inv in Hs as [Hs Hf].
  rewrite Forall_forall in Hf. unfold close in Hc. simpl.
  destruct (Z.ltb_spec xdist (pi.1 - pj.1)).
  - exfalso. apply elem_of_cons in Hq as [->|Hq]; [lia|].
    specialize (Hf q Hq). unfold xge in Hf. lia.
  - destruct (Z.ltb_spec ydist (Z.abs (pi.2 - pj.2))).
    + apply elem_of_cons in Hq as [->|Hq]; [lia|].
      apply IH; [done|set_solver|done|unfold close; lia].
    + apply elem_of_cons in Hq as [->|Hq].
      * apply scan_back_mono, join_same.
      * apply IH; [done|set_solver|done|unfold close; lia].
Qed.

Lemma scan_all_joins rest : forall seen g,
  StronglySorted xge seen -> StronglySorted xle rest ->
  (forall s r, s ∈ seen -> r ∈ rest -> s.1 <= r.1) ->
  (forall p q, p ∈ seen -> q ∈ seen -> p <> q -> close xdist ydist p q ->
     same g p q) ->
  forall p q, p ∈ seen ++ rest -> q ∈ seen ++ rest -> p <> q ->
  close xdist ydist p q -> same (scan_all xdist ydist g seen rest) p q.
Proof.
  induction rest as [|r rest IH]; intros seen g Hseen Hrest Hsr Hg p q Hp Hq Hne Hc.
  { simpl. rewrite app_nil_r in Hp, Hq. auto. }
  apply StronglySorted_inv in Hrest as [Hrest Hf].
  rewrite Forall_forall in Hf. simpl.
  assert (Hr : forall s, s ∈ seen -> s.1 <= r.1) by (intros; apply Hsr; set_solver).
  apply IH.
  - constructor; [done|]. apply Forall_forall. intros s Hs. apply Hr, Hs.
  - done.
  - intros s t Hs Ht. apply elem_of_cons in Hs as [->|Hs].
    + apply Hf, Ht.
    + apply Hsr; set_solver.
  - intros a b Ha Hb Hab Hcab.
    apply elem_of_cons in Ha as [->|Ha], Hb as [->|Hb].
    + done.
    + by apply scan_back_joins.
    + apply same_sym. apply scan_back_joins; auto using close_sym.
    + apply scan_back_mono. auto.
  - set_solver.
  - set_solver.
  - done.
  - done.
Qed.

End ScanFacts.

(** ** The groups collected by [synteny_scan] *)

Section ScanGroups.

Variables (points : list point) (xdist ydist : Z).

Lemma scan_groups_ind (P : grouper -> Prop) :
  P [] ->
  (forall g' pi pj, P g' ->
     (exists l1 l2 l3, py_sort points = l1 ++ pj :: l2 ++ pi :: l3) ->
     pi.1 - pj.1 <= xdist -> Z.abs (pi.2 - pj.2) <= ydist ->
     P (join g' pi pj)) ->
  P (scan_groups points xdist ydist).
Proof. intros. by apply (scan_all_ind xdist ydist P (py_sort points)). Qed.

Lemma sorted_split_facts l1 pj l2 pi l3 :
  py_sort points = l1 ++ pj :: l2 ++ pi :: l3 ->
  pj ∈ points /\ pi ∈ points /\ pj.1 <= pi.1.
Proof.
  intros HL. rewrite <- !(elem_of_py_sort points), HL.
  split; [set_solver|]. split; [set_solver|].
  apply (ss_between xle l1 pj l2 pi l3). rewrite <- HL.
  apply ss_xle, py_sort_sorted.
Qed.

Lemma scan_groups_disjoint : groups_disjoint (scan_groups points xdist ydist).
Proof.
  apply scan_groups_ind.
  - intros c1 c2 x H1. by apply elem_of_nil in H1.
  - intros. by apply join_disjoint.
Qed.

Lemma scan_groups_nodup : Forall NoDup (scan_groups points xdist ydist).
Proof. apply scan_groups_ind; [constructor|]. intros. by apply join_nodup. Qed.

Lemma scan_groups_members c x :
  c ∈ scan_groups points xdist ydist -> x ∈ c -> x ∈ points.
Proof.
  revert c x. apply (scan_groups_ind (fun g => forall c x, c ∈ g -> x ∈ c -> x ∈ points)).
  - intros c x H. by apply elem_of_nil in H.
  - intros g pi pj IH (l1 & l2 & l3 & HL) _ _ c x Hc Hx.
    destruct (sorted_split_facts _ _ _ _ _ HL) as (Hj & Hi & _).
    apply elem_of_join in Hc as [->|[Hc _]]; [|eauto].
    apply elem_of_join_group in Hx as [->|[->|(c' & Hc' & _ & Hx)]]; eauto.
Qed.

#[local] Instance link_sym : Symmetric (link points xdist ydist).
Proof. intros p q (? & ? & ?). split; [done|]. split; [done|]. by apply close_sym. Qed.

Lemma scan_groups_connected c x y :
  c ∈ scan_groups points xdist ydist -> x ∈ c -> y ∈ c ->
  rtc (link points xdist ydist) x y.
Proof.
  revert c x y.
  apply (scan_groups_ind (fun g => forall c x y, c ∈ g -> x ∈ c -> y ∈ c ->
                            rtc (link points xdist ydist) x y)).
  - intros c x y H. by apply elem_of_nil in H.
  - intros g pi pj IH (l1 & l2 & l3 & HL) Hx Hy c x y Hc Hxc Hyc.
    destruct (sorted_split_facts _ _ _ _ _ HL) as (Hj & Hi & Hle).
    assert (Hlink : link points xdist ydist pj pi).
    { split; [done|]. split; [done|]. unfold close. lia. }
    apply elem_of_join in Hc as [->|[Hc _]]; [|eauto].
    assert (Hto : forall z, z ∈ join_group g pi pj ->
                  rtc (link points xdist ydist) z pi).
    { intros z Hz.
      apply elem_of_join_group in Hz as [->|[->|(c' & Hc' & [Hpi|Hpj] & Hz)]].
      - done.
      - by apply rtc_once.
      - eauto.
      - eapply rtc_r; [|exact Hlink]. eauto. }
    etrans; [apply Hto, Hxc|]. symmetry. apply Hto, Hyc.
Qed.

Lemma scan_groups_complete p q :
  p ∈ points -> q ∈ points -> p <> q -> close xdist ydist p q ->
  same (scan_groups points xdist ydist) p q.
Proof.
  intros Hp Hq Hne Hc. unfold scan_groups.
  apply (scan_all_joins xdist ydist (py_sort points) [] []).
  - constructor.
  - apply ss_xle, py_sort_sorted.
  - intros s r Hs. by apply elem_of_nil in Hs.
  - intros a b Ha. by apply elem_of_nil in Ha.
  - simpl. by rewrite elem_of_py_sort.
  - simpl. by rewrite elem_of_py_sort.
  - done.
  - done.
Qed.

Lemma elem_of_synteny_scan N c :
  c ∈ synteny_scan points xdist ydist N <->
  exists g0, c = py_sort g0 /\ g0 ∈ scan_groups points xdist ydist /\ N <= _score g0.
Proof.
  unfold synteny_scan, synteny_scan_st, scan_groups. simpl.
  rewrite list_elem_of_In, in_map_iff.
  setoid_rewrite <- list_elem_of_In. setoid_rewrite list_elem_of_filter.
  naive_solver.
Qed.

End ScanGroups.

Lemma occurrences_perm p (l k : list point) :
  l ≡ₚ k -> occurrences p l = occurrences p k.
Proof. intros H. unfold occurrences. by rewrite H. Qed.

Lemma occurrences_split_two p l1 l2 l3 :
  (2 <= occurrences p (l1 ++ p :: l2 ++ p :: l3))%nat.
Proof.
  unfold occurrences. rewrite filter_app, filter_cons_True, filter_app,
    filter_cons_True by done.
  rewrite length_app. simpl. rewrite length_app. simpl. lia.
Qed.

(** A point lies in a group only if it was joined: it is within the bounds
    of another input point, or it occurs twice in the input. *)
Lemma scan_groups_joined points xdist ydist c x :
  c ∈ scan_groups points xdist ydist -> x ∈ c ->
  (exists q, q ∈ points /\ q <> x /\ close xdist ydist x q) \/
  (2 <= occurrences x points)%nat.
Proof.
  revert c x.
  apply (scan_groups_ind points xdist ydist (fun g => forall c x, c ∈ g -> x ∈ c ->
    (exists q, q ∈ points /\ q <> x /\ close xdist ydist x q) \/
    (2 <= occurrences x points)%nat)).
  - intros c x H. by apply elem_of_nil in H.
  - intros g pi pj IH (l1 & l2 & l3 & HL) Hx Hy c x Hc Hxc.
    destruct (sorted_split_facts points _ _ _ _ _ HL) as (Hj & Hi & Hle).
    apply elem_of_join in Hc as [->|[Hc _]]; [|eauto].
    assert (Hcl : close xdist ydist pi pj) by (unfold close; lia).
    apply elem_of_join_group in Hxc as [->|[->|(c' & Hc' & _ & Hx')]];
      [..|eauto];
      (destruct (decide (pi = pj)) as [<-|Hne];
       [right; rewrite <- (occurrences_perm _ _ _ (py_sort_perm points)), HL;
        apply occurrences_split_two|]).
    + left. exists pj. auto.
    + left. exists pi. auto using close_sym.
Qed.

Lemma remove_dups_length_perm (f : point -> Z) (l k : list point) :
  l ≡ₚ k -> length (remove_dups (map f l)) = length (remove_dups (map f k)).
Proof.
  intros H. apply Permutation_length, NoDup_Permutation;
    [apply NoDup_remove_dups..|].
  intros x. rewrite !elem_of_remove_dups. by rewrite H.
Qed.

Lemma _score_py_sort (l : list point) : _score (py_sort l) = _score l.
Proof.
  unfold _score. by rewrite !(remove_dups_length_perm _ _ _ (py_sort_perm l)).
Qed.

Lemma py_sort_perm_eq (l k : list point) : l ≡ₚ k -> py_sort l = py_sort k.
Proof.
  intros H. apply (Sorted_unique point_le).
  - apply Sorted_merge_sort. apply _.
  - apply Sorted_merge_sort. apply _.
  - by rewrite !py_sort_perm.
Qed.

(** ** Clustering: the claims *)

(** C1: two points of one returned cluster are connected by a chain of
    joins between input points, each within [xdist] on x and [ydist] on y;
    two points of different returned clusters are not within both bounds
    of each other. *)
Theorem synteny_scan_single_linkage (points : list point) (xdist ydist N : Z) :
  (forall c p q, c ∈ synteny_scan points xdist ydist N -> p ∈ c -> q ∈ c ->
     rtc (link points xdist ydist) p q) /\
  (forall c1 c2 p q, c1 ∈ synteny_scan points xdist ydist N ->
     c2 ∈ synteny_scan points xdist ydist N -> p ∈ c1 -> q ∈ c2 ->
     close xdist ydist p q -> c1 = c2).
Proof.
  split.
  - intros c p q Hc Hp Hq.
    apply elem_of_synteny_scan in Hc as (g0 & -> & Hg0 & _).
    rewrite elem_of_py_sort in Hp, Hq. eapply scan_groups_connected; eauto.
  - intros c1 c2 p q H1 H2 Hp Hq Hc.
    apply elem_of_synteny_scan in H1 as (g1 & -> & Hg1 & _).
    apply elem_of_synteny_scan in H2 as (g2 & -> & Hg2 & _).
    rewrite elem_of_py_sort in Hp, Hq.
    destruct (decide (p = q)) as [<-|Hne].
    + f_equal. eapply scan_groups_disjoint; eauto.
    + destruct (scan_groups_complete points xdist ydist p q) as (c & Hc' & Hpc & Hqc);
        eauto using scan_groups_members.
      f_equal. transitivity c; eapply scan_groups_disjoint; eauto.
Qed.

(** C2: on [(0,0),(1,1),(2,2),(100,100)] with bounds 5, 5 and [N = 2] the
    result is the single cluster [(0,0),(1,1),(2,2)], of score 3, and
    [(100,100)] is in no returned cluster. *)
Theorem synteny_scan_example :
  synteny_scan [(0,0); (1,1); (2,2); (100,100)] 5 5 2 = [[(0,0); (1,1); (2,2)]] /\
  _score [(0,0); (1,1); (2,2)] = 3 /\
  (forall c, c ∈ synteny_scan [(0,0); (1,1); (2,2); (100,100)] 5 5 2 ->
     (100,100) ∉ c).
Proof.
  assert (E : synteny_scan [(0,0); (1,1); (2,2); (100,100)] 5 5 2
              = [[(0,0); (1,1); (2,2)]]) by (vm_compute; reflexivity).
  split; [exact E|]. split; [vm_compute; reflexivity|].
  intros c Hc. rewrite E in Hc. apply list_elem_of_singleton in Hc as ->.
  apply (bool_decide_unpack _). vm_compute. reflexivity.
Qed.

(** C3: every returned cluster has score at least [N], and every collected
    group of score at least [N] is returned (sorted). *)
Theorem synteny_scan_score_filter (points : list point) (xdist ydist N : Z) :
  (forall c, c ∈ synteny_scan points xdist ydist N -> N <= _score c) /\
  (forall g0, g0 ∈ scan_groups points xdist ydist -> N <= _score g0 ->
     py_sort g0 ∈ synteny_scan points xdist ydist N).
Proof.
  split.
  - intros c Hc. apply elem_of_synteny_scan in Hc as (g0 & -> & _ & Hs).
    by rewrite _score_py_sort.
  - intros g0 Hg0 Hs. apply elem_of_synteny_scan. eauto.
Qed.

(** C6: reordering the input does not change the result. *)
Theorem synteny_scan_perm_invariant (points points' : list point) (xdist ydist N : Z) :
  points ≡ₚ points' ->
  synteny_scan points xdist ydist N = synteny_scan points' xdist ydist N.
Proof.
  intros H. unfold synteny_scan, synteny_scan_st. by rewrite (py_sort_perm_eq _ _ H).
Qed.

Lemma synteny_scan_perm_invariant_witness :
  [(1,0); (0,0); (3,2)] ≡ₚ [(0,0); (3,2); (1,0)] /\
  synteny_scan [(1,0); (0,0); (3,2)] 2 2 1 = synteny_scan [(0,0); (3,2); (1,0)] 2 2 1.
Proof.
  assert (H : [(1,0); (0,0); (3,2)] ≡ₚ [(0,0); (3,2); (1,0)])
    by (apply (bool_decide_unpack _); vm_compute; reflexivity).
  split; [exact H|]. apply (synteny_scan_perm_invariant _ _ 2 2 1 H).
Defined.

(** C7 (counterexample): a point joined to no other forms no singleton
    group: on [(0,0),(100,100)] with bounds 5, 5 no group is collected, so
    [(0,0)] lies in no collected cluster. *)
Lemma scan_groups_isolated_point :
  scan_groups [(0,0); (100,100)] 5 5 = [] /\
  ~ (forall p, p ∈ [(0,0); (100,100)] ->
       exists c, c ∈ scan_groups [(0,0); (100,100)] 5 5 /\ p ∈ c).
Proof.
  assert (E : scan_groups [(0,0); (100,100)] 5 5 = []) by (vm_compute; reflexivity).
  split; [exact E|]. intros H.
  destruct (H (0,0)) as (c & Hc & _); [left|].
  rewrite E in Hc. by apply elem_of_nil in Hc.
Qed.

(** C7 (amended): the collected groups are pairwise disjoint, duplicate
    free and made of input points; every input point within both bounds of
    a different input point lies in one of them; a point that occurs once
    and is within the bounds of no other input point lies in none; every
    returned cluster is sorted ascending. *)
Theorem scan_groups_partition (points : list point) (xdist ydist N : Z) :
  groups_disjoint (scan_groups points xdist ydist) /\
  Forall NoDup (scan_groups points xdist ydist) /\
  (forall c x, c ∈ scan_groups points xdist ydist -> x ∈ c -> x ∈ points) /\
  (forall p q, p ∈ points -> q ∈ points -> p <> q -> close xdist ydist p q ->
     exists c, c ∈ scan_groups points xdist ydist /\ p ∈ c) /\
  (forall p, occurrences p points = 1%nat ->
     (forall q, q ∈ points -> q <> p -> ~ close xdist ydist p q) ->
     forall c, c ∈ scan_groups points xdist ydist -> p ∉ c) /\
  (forall c, c ∈ synteny_scan points xdist ydist N -> StronglySorted point_le c).
Proof.
  split; [apply scan_groups_disjoint|].
  split; [apply scan_groups_nodup|].
  split; [apply scan_groups_members|].
  split.
  { intros p q Hp Hq Hne Hc.
    destruct (scan_groups_complete points xdist ydist p q) as (c & ? & ? & _);
      eauto. }
  split.
  { intros p Hocc Hfar c Hc Hp.
    destruct (scan_groups_joined points xdist ydist c p Hc Hp)
      as [(q & Hq & Hne & Hcl)|Hge]; [|lia].
    by apply (Hfar q). }
  intros c Hc. apply elem_of_synteny_scan in Hc as (g0 & -> & _).
  apply py_sort_sorted.
Qed.

(** C8 (counterexample): [points.sort()] reorders the caller's list. *)
Lemma synteny_scan_sorts_caller_list :
  snd (synteny_scan_st [(1,0); (0,0)] 5 5 1) = [(0,0); (1,0)] /\
  snd (synteny_scan_st [(1,0); (0,0)] 5 5 1) <> [(1,0); (0,0)].
Proof. split; vm_compute; [reflexivity|discriminate]. Qed.

(** C8 (amended): after the call the caller's list holds the same elements,
    sorted ascending. *)
Theorem synteny_scan_caller_list (points : list point) (xdist ydist N : Z) :
  snd (synteny_scan_st points xdist ydist N) ≡ₚ points /\
  StronglySorted point_le (snd (synteny_scan_st points xdist ydist N)).
Proof. simpl. split; [apply py_sort_perm|apply py_sort_sorted]. Qed.

(** ** Liftover *)

Lemma kd_query_some anchors i q ub best :
  is_Some best -> is_Some (kd_query anchors i q ub best).
Proof.
  revert i ub best. induction anchors as [|a anchors IH]; intros i ub best Hb;
    simpl; [done|].
  destruct (Z.ltb_spec (l1_dist a q) ub); apply IH; [by eexists|done].
Qed.

(** The query finds no neighbour exactly when every anchor is at distance
    [ub] or more. *)
Lemma kd_query_none anchors i q ub :
  kd_query anchors i q ub None = None <-> Forall (fun a => ub <= l1_dist a q) anchors.
Proof.
  revert i. induction anchors as [|a anchors IH]; intros i; simpl.
  - split; [constructor|done].
  - rewrite Forall_cons. destruct (Z.ltb_spec (l1_dist a q) ub).
    + split; [|intros [? _]; lia]. intros Hn.
      destruct (kd_query_some anchors (S i) q (l1_dist a q) (Some (l1_dist a q, i)))
        as [? Hs]; [by eexists|congruence].
    + rewrite IH. split; [intros; split; [lia|done]|tauto].
Qed.

Lemma row_point_take (r : list Z) : row_point (take 2 r) = row_point r.
Proof. destruct r as [|x [|y r]]; reflexivity. Qed.

Lemma emit_near_filter anchors dist (f : list Z -> list Z) (points : list (list Z)) :
  (forall r, row_point (f r) = row_point r) ->
  emit_near anchors dist points (map f points) =
  filter (fun r => Exists (fun a => l1_dist a (row_point r) < dist) anchors) points.
Proof.
  intros Hf. induction points as [|r points IH]; [done|]. simpl.
  rewrite filter_cons, Hf, IH.
  destruct (kd_query anchors 0 (row_point r) dist None) eqn:E;
    case_decide as Hex; try done.
  - exfalso. apply Hex. apply Exists_exists.
    assert (Hn : ~ Forall (fun a => dist <= l1_dist a (row_point r)) anchors)
      by (rewrite <- (kd_query_none anchors 0); congruence).
    apply not_Forall_Exists in Hn; [|intros a; apply _].
    rewrite Exists_exists in Hn. destruct Hn as (a & Ha & Hd).
    exists a. split; [done|]. simpl in Hd. lia.
  - exfalso. apply kd_query_none in E. rewrite Exists_exists in Hex.
    rewrite Forall_forall in E. destruct Hex as (a & Ha & Hd).
    specialize (E a Ha). simpl in E. lia.
Qed.

(** C5 (counterexample): a hit at L1 distance exactly [dist] from its
    nearest anchor is not emitted. *)
Lemma synteny_liftover_boundary :
  synteny_liftover [[0; 3]] [(0,0)] 3 = Some [] /\ l1_dist (0,0) (0,3) <= 3.
Proof. split; vm_compute; [reflexivity|discriminate]. Qed.

(** C5 (amended): for a non-empty list of hits whose rows all have the same
    length [k >= 2] and a non-empty list of anchors, [synteny_liftover]
    emits, in input order, exactly the hits with an anchor at L1 distance
    (on their first two coordinates) strictly below [dist]. *)
Theorem synteny_liftover_strict (points : list (list Z)) (anchors : list point)
    (dist : Z) (k : nat) :
  points <> [] -> (2 <= k)%nat -> Forall (fun r => length r = k) points ->
  anchors <> [] ->
  synteny_liftover points anchors dist =
  Some (filter (fun r => Exists (fun a => l1_dist a (row_point r) < dist) anchors)
          points).
Proof.
  intros Hne Hk Hlen _. unfold synteny_liftover.
  assert (Hs : np_shape points !! 1%nat = Some k).
  { destruct points as [|r rs]; [done|]. unfold np_shape.
    assert (Hall : forallb (fun r' => Nat.eqb (length r') (length r)) (r :: rs) = true).
    { apply forallb_forall. intros r' Hr'. apply Nat.eqb_eq.
      rewrite <- list_elem_of_In in Hr'. rewrite Forall_forall in Hlen.
      rewrite (Hlen r' Hr'), (Hlen r); [done|left]. }
    rewrite Hall. simpl. rewrite Forall_cons in Hlen. by destruct Hlen as [-> _]. }
  rewrite Hs. destruct (Nat.ltb_spec k 2); [lia|].
  destruct (Nat.ltb_spec 2 k).
  - f_equal. apply emit_near_filter, row_point_take.
  - rewrite <- (map_id points) at 2. f_equal. by apply emit_near_filter.
Qed.

Lemma synteny_liftover_strict_witness :
  ([[0; 3; 7]; [0; 2; 8]] <> [] /\ (2 <= 3)%nat /\
   Forall (fun r : list Z => length r = 3%nat) [[0; 3; 7]; [0; 2; 8]] /\
   [(0,0)] <> []) /\
  synteny_liftover [[0; 3; 7]; [0; 2; 8]] [(0,0)] 3 =
  Some (filter (fun r => Exists (fun a => l1_dist a (row_point r) < 3) [(0,0)])
          [[0; 3; 7]; [0; 2; 8]]).
Proof.
  assert (H1 : [[0; 3; 7]; [0; 2; 8]] <> []).
  { apply (bool_decide_unpack _). vm_compute. reflexivity. }
  assert (H2 : (2 <= 3)%nat) by lia.
  assert (H3 : Forall (fun r : list Z => length r = 3%nat) [[0; 3; 7]; [0; 2; 8]]).
  { apply (bool_decide_unpack _). vm_compute. reflexivity. }
  assert (H4 : [(0,0)] <> ([] : list point)).
  { apply (bool_decide_unpack _). vm_compute. reflexivity. }
  split; [tauto|]. apply (synteny_liftover_strict _ _ 3 3 H1 H2 H3 H4).
Defined.

(** C10 (counterexample): on an empty hit list [synteny_liftover] raises
    ([points.shape[1]] on an array of shape [(0,)]). *)
Lemma synteny_liftover_empty_raises :
  synteny_liftover [] [(0,0)] 3 = None.
Proof. vm_compute. reflexivity. Qed.

(** C10 (amended): [synteny_scan] on an empty point list returns no
    cluster; [synteny_liftover] on an empty hit list raises, whatever the
    anchors and the bound. *)
Theorem empty_inputs (xdist ydist N : Z) (anchors : list point) (dist : Z) :
  synteny_scan [] xdist ydist N = [] /\ synteny_liftover [] anchors dist = None.
Proof. split; reflexivity. Qed.

(** ** [read_blast] *)

Lemma read_blast_rows_self (qorder sorder : order) (rows : list BlastLine) :
  forall seen,
  Forall (fun b => qi b <= si b) (read_blast_rows qorder sorder true seen rows) /\
  NoDup (map (fun b => (query b, subject b)) (read_blast_rows qorder sorder true seen rows)) /\
  Forall (fun b => (query b, subject b) ∉ seen) (read_blast_rows qorder sorder true seen rows).
Proof.
  induction rows as [|b rows IH]; intros seen; simpl.
  { split; [constructor|]. split; constructor. }
  destruct (qorder !! query b) as [[qi0 q]|]; [|apply IH].
  destruct (sorder !! subject b) as [[si0 s]|]; [|apply IH].
  case_bool_decide as Hseen; [apply IH|].
  destruct (IH ({[(query b, subject b)]} ∪ seen)) as (H1 & H2 & H3).
  rewrite Forall_forall in H3.
  assert (Hout : (query b, subject b) ∉
                 map (fun b' => (query b', subject b'))
                   (read_blast_rows qorder sorder true ({[(query b, subject b)]} ∪ seen) rows)).
  { intros Hin. apply list_elem_of_In, in_map_iff in Hin as (b' & Heq & Hb').
    apply list_elem_of_In in Hb'. apply (H3 b' Hb'). rewrite Heq. set_solver. }
  destruct (Z.ltb_spec si0 qi0); simpl.
  all: split; [constructor; [simpl; lia|done]|].
  all: split; [by apply NoDup_cons|].
  all: constructor; [done|]; apply Forall_forall; intros b' Hb';
       specialize (H3 b' Hb'); set_solver.
Qed.

(** C9 (counterexample): the symmetric rows [a b] and [b a] of a self
    comparison both survive, as two records with the same coordinates
    [(0, 1)]. *)
Lemma read_blast_symmetric_pair :
  map (fun b => (qi b, si b)) (read_blast [bl "a" "b"; bl "b" "a"] ord_ab ord_ab true)
  = [(0,1); (0,1)].
Proof. vm_compute. reflexivity. Qed.

(** C9 (amended): in a self comparison every record has [qi <= si], and no
    two records come from the same [(query, subject)] name pair. *)
Theorem read_blast_self_canonical (rows : list BlastLine) (qorder sorder : order) :
  Forall (fun b => qi b <= si b) (read_blast rows qorder sorder true) /\
  NoDup (map (fun b => (query b, subject b)) (read_blast rows qorder sorder true)).
Proof.
  unfold read_blast. destruct (read_blast_rows_self qorder sorder rows ∅) as (? & ? & _).
  split; done.
Qed.

(** ** Chaining *)

(** C4: on the ranges [(A,0,10,5,1)], [(A,5,15,3,2)], [(A,20,30,4,3)] with
    two iterations the loop gives the track of ids 1 and 3, of score 9,
    then the track of id 2. *)
Theorem mcscan_example :
  mcscan_tracks [rA 0 10 5 1; rA 5 15 3 2; rA 20 30 4 3] 2 =
    [[rA 0 10 5 1; rA 20 30 4 3]; [rA 5 15 3 2]] /\
  total_score [rA 0 10 5 1; rA 20 30 4 3] = 9 /\
  snd (range_chain [rA 0 10 5 1; rA 5 15 3 2; rA 20 30 4 3]) = 9.
Proof. split; [|split]; vm_compute; reflexivity. Qed.

(** ** Grouping by chromosome pair *)

Lemma group_hits_foldl (bs : list BlastLine) :
  forall (m : gmap chr_pair (list point)) (k : chr_pair),
  foldl (fun m b => add_hit m (qseqid b, sseqid b) (qi b, si b)) m bs !! k =
  match m !! k with
  | Some l0 => Some (l0 ++ map (fun b => (qi b, si b))
                              (filter (fun b => (qseqid b, sseqid b) = k) bs))
  | None =>
      match map (fun b => (qi b, si b)) (filter (fun b => (qseqid b, sseqid b) = k) bs) with
      | [] => None
      | l => Some l
      end
  end.
Proof.
  induction bs as [|b bs IH]; intros m k; simpl.
  { destruct (m !! k); [by rewrite app_nil_r|done]. }
  rewrite IH, filter_cons. unfold add_hit.
  case_decide as Hk.
  - rewrite Hk, lookup_insert_eq. simpl.
    destruct (m !! k); simpl; [f_equal; by rewrite <- app_assoc|reflexivity].
  - rewrite lookup_insert_ne by done. done.
Qed.

(** X1: [group_hits] stores under each chromosome pair the coordinates of
    the hits of that pair, in input order, and has a key exactly for the
    pairs some hit carries. *)
Theorem group_hits_lookup (bs : list BlastLine) (k : chr_pair) :
  default [] (group_hits bs !! k) =
    map (fun b => (qi b, si b)) (filter (fun b => (qseqid b, sseqid b) = k) bs) /\
  (is_Some (group_hits bs !! k) <-> exists b, b ∈ bs /\ (qseqid b, sseqid b) = k).
Proof.
  unfold group_hits. rewrite !(group_hits_foldl bs ∅ k), !lookup_empty.
  assert (Hex : (exists b, b ∈ bs /\ (qseqid b, sseqid b) = k) <->
                filter (fun b => (qseqid b, sseqid b) = k) bs <> []).
  { split.
    - intros (b & Hb & Hk) Hnil.
      assert (Hin : b ∈ filter (fun b => (qseqid b, sseqid b) = k) bs)
        by (apply list_elem_of_filter; done).
      rewrite Hnil in Hin. by apply elem_of_nil in Hin.
    - destruct (filter (fun b => (qseqid b, sseqid b) = k) bs) as [|b l] eqn:E;
        [done|]. intros _.
      assert (Hin : b ∈ filter (fun b => (qseqid b, sseqid b) = k) bs)
        by (rewrite E; left).
      apply list_elem_of_filter in Hin. exists b. tauto. }
  rewrite Hex.
  destruct (filter (fun b => (qseqid b, sseqid b) = k) bs); simpl.
  - split; [done|]. split; [intros [? H]; done|intros H; by exfalso].
  - split; [done|]. split; [done|intros _; by eexists].
Qed.

Lemma elem_of_concat_any {A} (x : A) (ls : list (list A)) :
  x ∈ concat ls <-> exists l, l ∈ ls /\ x ∈ l.
Proof.
  rewrite list_elem_of_In, in_concat.
  split; intros [l [H1 H2]]; exists l; rewrite ?list_elem_of_In in *; tauto.
Qed.

Lemma elem_of_batch_scan (bs : list BlastLine) (xdist ydist N : Z) c :
  c ∈ batch_scan bs xdist ydist N <->
  exists k : chr_pair, c ∈ synteny_scan (default [] (group_hits bs !! k)) xdist ydist N.
Proof.
  unfold batch_scan. cbv zeta. rewrite elem_of_concat_any. split.
  - intros (l & Hl & Hc). apply list_elem_of_In, in_map_iff in Hl as (k & <- & _).
    eauto.
  - intros (k & Hc). destruct (group_hits bs !! k) as [l|] eqn:E.
    + exists (synteny_scan l xdist ydist N). split; [|done].
      apply list_elem_of_In, in_map_iff. exists k. rewrite E. split; [done|].
      apply list_elem_of_In. rewrite merge_sort_Permutation.
      apply list_elem_of_In, in_map_iff. exists (k, l). split; [done|].
      apply list_elem_of_In. by apply elem_of_map_to_list.
    + simpl in Hc. by apply elem_of_nil in Hc.
Qed.

Lemma group_hits_default (bs : list BlastLine) (k : chr_pair) :
  default [] (group_hits bs !! k) =
    map (fun b => (qi b, si b)) (filter (fun b => (qseqid b, sseqid b) = k) bs).
Proof.
  unfold group_hits. rewrite (group_hits_foldl bs ∅ k), lookup_empty.
  by destruct (map (fun b => (qi b, si b)) (filter (fun b => (qseqid b, sseqid b) = k) bs)).
Qed.

Lemma elem_of_batch_scan_pair (bs : list BlastLine) (xdist ydist N : Z) c :
  c ∈ batch_scan bs xdist ydist N <->
  exists k : chr_pair, c ∈ synteny_scan
                 (map (fun b => (qi b, si b)) (filter (fun b => (qseqid b, sseqid b) = k) bs))
                 xdist ydist N.
Proof.
  rewrite elem_of_batch_scan.
  assert (E : forall k : chr_pair, default [] (group_hits bs !! k) =
    map (fun b => (qi b, si b)) (filter (fun b => (qseqid b, sseqid b) = k) bs))
    by (intros k; apply group_hits_default).
  by setoid_rewrite E.
Qed.

(** X2: the clusters of [batch_scan] are exactly the clusters that
    [synteny_scan] finds on the hits of one chromosome pair, so a cluster
    never mixes hits of two chromosome pairs. *)
Theorem batch_scan_per_pair (bs : list BlastLine) (xdist ydist N : Z) c :
  c ∈ batch_scan bs xdist ydist N <->
  exists k : chr_pair, c ∈ synteny_scan
                 (map (fun b => (qi b, si b)) (filter (fun b => (qseqid b, sseqid b) = k) bs))
                 xdist ydist N.
Proof. apply elem_of_batch_scan_pair. Qed.

(** X3: the pipeline of [scan] on a self comparison, [batch_scan] over
    [read_blast(..., is_self=True)], only reports anchors [(qi, si)] with
    [qi <= si]. *)
Theorem scan_self_one_side (rows : list BlastLine) (qorder sorder : order)
    (xdist ydist N : Z) c p :
  c ∈ batch_scan (read_blast rows qorder sorder true) xdist ydist N -> p ∈ c ->
  p.1 <= p.2.
Proof.
  intros Hc Hp. apply elem_of_batch_scan_pair in Hc as (k & Hc).
  apply elem_of_synteny_scan in Hc as (g0 & -> & Hg0 & _).
  rewrite elem_of_py_sort in Hp.
  pose proof (scan_groups_members _ _ _ _ _ Hg0 Hp) as Hin.
  apply list_elem_of_In, in_map_iff in Hin as (b & <- & Hb).
  apply list_elem_of_In, list_elem_of_filter in Hb as [_ Hb].
  destruct (read_blast_rows_self qorder sorder rows ∅) as (Hle & _).
  rewrite Forall_forall in Hle. apply (Hle b Hb).
Qed.

(** ** More on [synteny_scan] *)

Lemma distinct_count_le (f : point -> Z) (l : list point) :
  (length (remove_dups (map f l)) <= length l)%nat.
Proof.
  rewrite <- (length_map f l). apply NoDup_incl_length; [apply NoDup_ListNoDup, NoDup_remove_dups|].
  intros x Hx. apply list_elem_of_In, elem_of_remove_dups, list_elem_of_In. exact Hx.
Qed.

(** X4: every returned cluster is duplicate free and has at least [N]
    distinct x values and at least [N] distinct y values, hence at least
    [N] members. *)
Theorem synteny_scan_cluster_size (points : list point) (xdist ydist N : Z) c :
  c ∈ synteny_scan points xdist ydist N ->
  NoDup c /\
  N <= Z.of_nat (length (remove_dups (map fst c))) /\
  N <= Z.of_nat (length (remove_dups (map snd c))) /\
  N <= Z.of_nat (length c).
Proof.
  intros Hc. pose proof Hc as Hc'.
  apply elem_of_synteny_scan in Hc as (g0 & -> & Hg0 & Hs).
  rewrite <- _score_py_sort in Hs. unfold _score in Hs. rewrite Nat2Z.inj_min in Hs.
  apply Z.min_glb_iff in Hs as [Hs1 Hs2].
  pose proof (distinct_count_le fst (py_sort g0)).
  split; [|split; [exact Hs1|split; [exact Hs2|eapply Z.le_trans; [exact Hs1|apply Nat2Z.inj_le; exact H]]]].
  rewrite py_sort_perm. pose proof (scan_groups_nodup points xdist ydist) as Hn.
  rewrite Forall_forall in Hn. auto.
Qed.

Lemma filter_score_sort (N N' : Z) (l : list (list point)) :
  N <= N' ->
  map py_sort (filter (fun c => N' <= _score c) l) =
  filter (fun c => N' <= _score c) (map py_sort (filter (fun c => N <= _score c) l)).
Proof.
  intros HN. induction l as [|c l IH]; [done|].
  rewrite !filter_cons. case_decide; case_decide; simpl; rewrite ?filter_cons;
    rewrite ?_score_py_sort; repeat case_decide; simpl; try lia; f_equal; done.
Qed.

(** X5: raising the score threshold only filters the result: for
    [N <= N'], the clusters found with [N'] are those found with [N] whose
    score is at least [N'], in the same order. *)
Theorem synteny_scan_threshold_mono (points : list point) (xdist ydist N N' : Z) :
  N <= N' ->
  synteny_scan points xdist ydist N' =
  filter (fun c => N' <= _score c) (synteny_scan points xdist ydist N).
Proof. intros HN. unfold synteny_scan, synteny_scan_st. simpl. by apply filter_score_sort. Qed.

Lemma synteny_scan_threshold_mono_witness :
  2 <= 3 /\
  synteny_scan [(0,0); (1,1); (2,2); (9,0); (10,1)] 5 5 3 =
  filter (fun c => 3 <= _score c) (synteny_scan [(0,0); (1,1); (2,2); (9,0); (10,1)] 5 5 2).
Proof. split; [lia|]. apply synteny_scan_threshold_mono. lia. Defined.

(** X6: with a negative x or y bound no two points are ever joined, so
    [synteny_scan] returns no cluster at all, whatever [N]. *)
Theorem synteny_scan_negative_bound (points : list point) (xdist ydist N : Z) :
  xdist < 0 \/ ydist < 0 -> synteny_scan points xdist ydist N = [].
Proof.
  intros Hneg.
  assert (E : scan_groups points xdist ydist = []).
  { apply (scan_groups_ind points xdist ydist (fun g => g = [])); [done|].
    intros g pi pj _ (l1 & l2 & l3 & HL) Hx Hy. exfalso.
    destruct (sorted_split_facts points _ _ _ _ _ HL) as (_ & _ & Hle). lia. }
  unfold synteny_scan, synteny_scan_st. simpl. unfold scan_groups in E. by rewrite E.
Qed.

Lemma synteny_scan_negative_bound_witness :
  (-1 < 0 \/ 5 < 0) /\ synteny_scan [(0,0); (0,0); (0,1)] (-1) 5 1 = [].
Proof. split; [lia|]. apply synteny_scan_negative_bound. lia. Defined.

(** ** More on [read_blast] *)

Lemma read_blast_rows_coords (qorder sorder : order) (is_self : bool) rows :
  forall seen b, b ∈ read_blast_rows qorder sorder is_self seen rows ->
  (qorder !! query b = Some (qi b, qseqid b) /\ sorder !! subject b = Some (si b, sseqid b)) \/
  (is_self = true /\ qi b < si b /\
   qorder !! query b = Some (si b, sseqid b) /\ sorder !! subject b = Some (qi b, qseqid b)).
Proof.
  induction rows as [|r rows IH]; intros seen b Hb; simpl in Hb.
  { by apply elem_of_nil in Hb. }
  destruct (qorder !! query r) as [[qi0 q]|] eqn:Eq; [|eauto].
  destruct (sorder !! subject r) as [[si0 s]|] eqn:Es; [|eauto].
  case_bool_decide; [eauto|].
  destruct is_self, (Z.ltb_spec si0 qi0); simpl in Hb;
    apply elem_of_cons in Hb as [->|Hb]; eauto; simpl; rewrite Eq, Es; auto.
Qed.

(** X7: every record of [read_blast] carries the coordinates and seqids
    its two names have in the orders: as looked up, or, only in a self
    comparison and only when that puts the smaller index first, swapped
    between query and subject (the names themselves are never swapped). *)
Theorem read_blast_coords (rows : list BlastLine) (qorder sorder : order) (is_self : bool) b :
  b ∈ read_blast rows qorder sorder is_self ->
  (qorder !! query b = Some (qi b, qseqid b) /\ sorder !! subject b = Some (si b, sseqid b)) \/
  (is_self = true /\ qi b < si b /\
   qorder !! query b = Some (si b, sseqid b) /\ sorder !! subject b = Some (qi b, qseqid b)).
Proof. apply read_blast_rows_coords. Qed.

Lemma read_blast_rows_keys (qorder sorder : order) (is_self : bool) rows :
  forall seen,
  NoDup (map blast_key (read_blast_rows qorder sorder is_self seen rows)) /\
  (forall k, k ∈ map blast_key (read_blast_rows qorder sorder is_self seen rows) <->
    (k ∉ seen) /\ (exists r, r ∈ rows /\ blast_key r = k /\ blast_mapped qorder sorder r)).
Proof.
  unfold blast_mapped.
  induction rows as [|r rows IH]; intros seen; simpl.
  { split; [constructor|]. intros k. split; [intros H; by apply elem_of_nil in H|].
    intros (_ & r & Hr & _). by apply elem_of_nil in Hr. }
  destruct (qorder !! query r) as [[qi0 q]|] eqn:Eq.
  2: { destruct (IH seen) as [Hn Hk]. split; [done|]. intros k. rewrite Hk.
       setoid_rewrite elem_of_cons.
       split; [naive_solver|]. intros (Hs & r' & [->|Hr'] & Hkey & Hm); [|naive_solver].
       destruct Hm as [Hm _]. rewrite Eq in Hm. by apply is_Some_None in Hm. }
  destruct (sorder !! subject r) as [[si0 s]|] eqn:Es.
  2: { destruct (IH seen) as [Hn Hk]. split; [done|]. intros k. rewrite Hk.
       setoid_rewrite elem_of_cons.
       split; [naive_solver|]. intros (Hs & r' & [->|Hr'] & Hkey & Hm); [|naive_solver].
       destruct Hm as [_ Hm]. rewrite Es in Hm. by apply is_Some_None in Hm. }
  case_bool_decide as Hseen.
  - destruct (IH seen) as [Hn Hk]. split; [done|]. intros k. rewrite Hk.
    setoid_rewrite elem_of_cons.
    split; [naive_solver|]. intros (Hs & r' & [->|Hr'] & Hkey & Hm); [|naive_solver].
    unfold blast_key in Hkey. subst k. done.
  - destruct (IH ({[(query r, subject r)]} ∪ seen)) as [Hn Hk].
    destruct (is_self && Z.ltb si0 qi0); simpl.
    all: split; [constructor; [|done]; rewrite Hk; set_solver|].
    all: intros k; rewrite elem_of_cons, Hk; setoid_rewrite elem_of_cons; unfold blast_key.
    all: split; [intros [->|(Hs & r' & Hr' & Hkey & Hm)];
                 [split; [done|]; exists r; split; [by left|split; [done|split; eexists; eauto]]
                 |split; [set_solver|]; naive_solver]|].
    all: intros (Hs & r' & [->|Hr'] & Hkey & Hm); [by left|].
    all: destruct (decide (k = (query r, subject r))) as [->|Hne]; [by left|].
    all: right; split; [set_solver|]; naive_solver.
Qed.

(** X8: for any [is_self], [read_blast] keeps one record per [(query,
    subject)] name pair, and a pair gets a record exactly when some row
    has both of its names in the orders. *)
Theorem read_blast_one_per_key (rows : list BlastLine) (qorder sorder : order) (is_self : bool) :
  NoDup (map blast_key (read_blast rows qorder sorder is_self)) /\
  (forall k, k ∈ map blast_key (read_blast rows qorder sorder is_self) <->
    exists r, r ∈ rows /\ blast_key r = k /\ blast_mapped qorder sorder r).
Proof.
  destruct (read_blast_rows_keys qorder sorder is_self rows ∅) as [Hn Hk].
  split; [done|]. intros k. unfold read_blast. rewrite Hk. set_solver.
Qed.

(** ** More on [read_anchors] *)

Lemma read_anchors_rows_none (qorder sorder : order) rows :
  forall m, read_anchors_rows qorder sorder m rows = None <-> exists row, row ∈ rows /\ anchor_bad row.
Proof.
  unfold anchor_bad, anchor_comment.
  induction rows as [|row rows IH]; intros m; simpl.
  { split; [done|]. intros (row & Hr & _). by apply elem_of_nil in Hr. }
  setoid_rewrite elem_of_cons.
  destruct row as [|c r].
  { split; [intros _; exists EmptyString; auto|done]. }
  simpl. destruct (Ascii.eqb_spec c "#"%char) as [->|Hc].
  - rewrite IH. split; [naive_solver|].
    intros (row & [->|Hr] & Hb); [|eauto]. destruct Hb as [Hb|[Hb _]]; [done|]. by destruct Hb.
  - destruct (py_split (String c r)) as [|a [|b [|x l]]] eqn:Hs.
    3: { destruct (qorder !! a) as [[qi0 q]|], (sorder !! b) as [[si0 s]|].
         all: rewrite IH; split; [naive_solver|].
         all: intros (row & [->|Hr] & Hb); [|eauto].
         all: destruct Hb as [Hb|[_ Hb]]; [done|]; by rewrite Hs in Hb. }
    all: split; [intros _; exists (String c r); split; [by left|right; rewrite Hs; simpl;
                 split; [congruence|done]]|done].
Qed.

(** X9: [read_anchors] raises exactly when some line is empty or, not being
    a comment, does not split into exactly two fields; the gene names and
    the orders play no part in it. *)
Theorem read_anchors_error (rows : list string) (qorder sorder : order) :
  read_anchors rows qorder sorder = None <-> exists row, row ∈ rows /\ anchor_bad row.
Proof. apply read_anchors_rows_none. Qed.

Lemma add_hit_lookup (m : gmap chr_pair (list point)) (k k' : chr_pair) (p : point) :
  default [] (add_hit m k' p !! k) = default [] (m !! k) ++ (if decide (k = k') then [p] else []).
Proof.
  unfold add_hit. destruct (decide (k = k')) as [->|Hne].
  - by rewrite lookup_insert_eq.
  - rewrite lookup_insert_ne by congruence. by rewrite app_nil_r.
Qed.

Lemma read_anchors_rows_members (qorder sorder : order) rows :
  forall m m', read_anchors_rows qorder sorder m rows = Some m' ->
  forall (k : chr_pair) p, p ∈ default [] (m' !! k) <->
    p ∈ default [] (m !! k) \/
    exists row a b q s, row ∈ rows /\ ~ anchor_comment row /\ py_split row = [a; b] /\
      qorder !! a = Some (p.1, q) /\ sorder !! b = Some (p.2, s) /\ k = (q, s).
Proof.
  unfold anchor_comment.
  induction rows as [|row rows IH]; intros m m' Hm k p; simpl in Hm.
  { injection Hm as <-. split; [auto|]. intros [H|(row & a & b & q & s & Hr & _)]; [done|].
    by apply elem_of_nil in Hr. }
  setoid_rewrite elem_of_cons.
  destruct row as [|c r]; [done|].
  destruct (Ascii.eqb_spec c "#"%char) as [->|Hc].
  { rewrite (IH _ _ Hm). split; [naive_solver|].
    intros [H|(row & a & b & q & s & [->|Hr] & Hnc & ?)]; [auto| |naive_solver].
    by destruct Hnc. }
  destruct (py_split (String c r)) as [|a [|b [|x l]]] eqn:Hs; try done.
  destruct (qorder !! a) as [[qi0 q]|] eqn:Ea, (sorder !! b) as [[si0 s]|] eqn:Eb.
  2-4: rewrite (IH _ _ Hm); split; [naive_solver|];
       intros [H|(row & a' & b' & q' & s' & [->|Hr] & Hnc & Hsp & Ha & Hb & ->)];
       [auto| |naive_solver];
       rewrite Hs in Hsp; injection Hsp as <- <-; congruence.
  rewrite (IH _ _ Hm), add_hit_lookup, elem_of_app.
  destruct (decide (k = (q, s))) as [->|Hne].
  - rewrite list_elem_of_singleton. split.
    + intros [[H| ->]|H]; [auto| |naive_solver]. right. exists (String c r), a, b, q, s.
      simpl. split; [by left|]. split; [congruence|]. done.
    + intros [H|(row & a' & b' & q' & s' & [->|Hr] & Hnc & Hsp & Ha & Hb & Hk)];
        [auto| |naive_solver].
      rewrite Hs in Hsp. injection Hsp as <- <-. rewrite Ea in Ha. rewrite Eb in Hb.
      injection Ha as Ha1 <-. injection Hb as Hb1 <-. left. right. destruct p. simpl in *. by subst.
  - split.
    + intros [[H|H]|H]; [auto|by apply elem_of_nil in H|naive_solver].
    + intros [H|(row & a' & b' & q' & s' & [->|Hr] & Hnc & Hsp & Ha & Hb & Hk)];
        [auto| |naive_solver].
      rewrite Hs in Hsp. injection Hsp as <- <-. rewrite Ea in Ha. rewrite Eb in Hb.
      injection Ha as _ <-. injection Hb as _ <-. congruence.
Qed.

(** X10: when [read_anchors] succeeds, a point [(qi, si)] is listed under
    the key [(q, s)] exactly when some non-comment line [a b] has [a] at
    index [qi] on seqid [q] of the query order and [b] at index [si] on
    seqid [s] of the subject order. *)
Theorem read_anchors_members (rows : list string) (qorder sorder : order) m :
  read_anchors rows qorder sorder = Some m ->
  forall (k : chr_pair) p, p ∈ default [] (m !! k) <->
    exists row a b q s, row ∈ rows /\ ~ anchor_comment row /\ py_split row = [a; b] /\
      qorder !! a = Some (p.1, q) /\ sorder !! b = Some (p.2, s) /\ k = (q, s).
Proof.
  intros Hm k p. rewrite (read_anchors_rows_members _ _ _ _ _ Hm), lookup_empty. simpl.
  split; [intros [H|H]; [by apply elem_of_nil in H|done]|auto].
Qed.

Lemma read_anchors_members_witness :
  exists m, read_anchors ["# block"%string; "a b"%string] ord_ab ord_ab = Some m /\
  forall (k : chr_pair) p, p ∈ default [] (m !! k) <->
    exists row a b q s, row ∈ ["# block"%string; "a b"%string] /\ ~ anchor_comment row /\
      py_split row = [a; b] /\
      ord_ab !! a = Some (p.1, q) /\ ord_ab !! b = Some (p.2, s) /\ k = (q, s).
Proof.
  eexists. split; [vm_compute; reflexivity|].
  apply read_anchors_members. vm_compute. reflexivity.
Defined.

(** ** More on [rsplit_dot_head] *)

Lemma list_ascii_of_string_append (a b : string) :
  String.list_ascii_of_string (String.append a b) =
  String.list_ascii_of_string a ++ String.list_ascii_of_string b.
Proof. induction a as [|c a IH]; simpl; [done|]. by rewrite IH. Qed.

Lemma drop_through_dot_none (l : list Ascii.ascii) :
  "."%char ∉ l -> drop_through_dot l = None.
Proof.
  induction l as [|c l IH]; intros Hl; simpl; [done|].
  rewrite elem_of_cons in Hl. destruct (Ascii.eqb_spec c "."%char) as [->|_]; [tauto|].
  apply IH. tauto.
Qed.

Lemma drop_through_dot_app (l1 l2 : list Ascii.ascii) :
  "."%char ∉ l1 -> drop_through_dot (l1 ++ "."%char :: l2) = Some l2.
Proof.
  induction l1 as [|c l1 IH]; intros Hl; simpl; [done|].
  rewrite elem_of_cons in Hl. destruct (Ascii.eqb_spec c "."%char) as [->|_]; [tauto|].
  apply IH. tauto.
Qed.

Lemma not_elem_of_rev {A} (x : A) (l : list A) : x ∉ l -> x ∉ rev l.
Proof. intros H Hr. apply H. apply list_elem_of_In. apply in_rev, list_elem_of_In. done. Qed.

(** X11: [accn.rsplit(".", 1)[0]] strips exactly the last dotted suffix:
    [base ++ "." ++ suffix] with a dot-free [suffix] gives back [base], and
    a name without a dot is kept whole. *)
Theorem rsplit_dot_head_spec (base suffix s : string) :
  (no_dot suffix -> rsplit_dot_head (String.append base (String "." suffix)) = base) /\
  (no_dot s -> rsplit_dot_head s = s).
Proof.
  unfold no_dot, rsplit_dot_head. split; intros H.
  - rewrite list_ascii_of_string_append. simpl. rewrite rev_app_distr. simpl.
    rewrite <- app_assoc. simpl.
    rewrite drop_through_dot_app by (by apply not_elem_of_rev).
    rewrite rev_involutive. apply String.string_of_list_ascii_of_string.
  - by rewrite drop_through_dot_none by (by apply not_elem_of_rev).
Qed.

(** ** More on [get_blocks], [breakpoint] and [depth] *)

Lemma elem_of_block_points (ord : order) (bs : list BedLine) p :
  p ∈ block_points ord bs <->
  exists b seqid, b ∈ bs /\ ord !! rsplit_dot_head (accn b) = Some (p.1, seqid) /\
    p.2 = (bstart b + bend b) `div` 2.
Proof.
  induction bs as [|b bs IH]; simpl.
  { split; [intros H; by apply elem_of_nil in H|]. intros (b & _ & Hb & _). by apply elem_of_nil in Hb. }
  setoid_rewrite elem_of_cons.
  destruct (ord !! rsplit_dot_head (accn b)) as [[x sq]|] eqn:E.
  - rewrite elem_of_cons, IH. split.
    + intros [->|H]; [exists b, sq; auto|naive_solver].
    + intros (b' & sq' & [->|Hb] & Hl & Hy); [|naive_solver]. left.
      rewrite E in Hl. injection Hl as -> _. destruct p; simpl in *. by subst.
  - rewrite IH. split; [naive_solver|].
    intros (b' & sq' & [->|Hb] & Hl & Hy); [congruence|naive_solver].
Qed.

(** X12: every point of a block of [get_blocks] comes from a bed line whose
    name, without its last dotted suffix, is in the order at the point's x,
    and whose floor midpoint is the point's y; so y lies between the line's
    start and end when start <= end. *)
Theorem get_blocks_points (ord : order) (bs : list BedLine) (xdist ydist N : Z) c p :
  c ∈ get_blocks ord bs xdist ydist N -> p ∈ c ->
  exists b seqid, b ∈ bs /\ ord !! rsplit_dot_head (accn b) = Some (p.1, seqid) /\
    p.2 = (bstart b + bend b) `div` 2 /\
    (bstart b <= bend b -> bstart b <= p.2 <= bend b).
Proof.
  intros Hc Hp. unfold get_blocks in Hc.
  apply elem_of_synteny_scan in Hc as (g0 & -> & Hg0 & _).
  rewrite elem_of_py_sort in Hp.
  pose proof (scan_groups_members _ _ _ _ _ Hg0 Hp) as Hm.
  apply elem_of_block_points in Hm as (b & sq & Hb & Hl & Hy).
  exists b, sq. split; [done|]. split; [done|]. split; [done|].
  intros Hse. rewrite Hy. Z.div_mod_to_equations. lia.
Qed.

Lemma foldl_min_spec (x : Z) (l : list Z) :
  foldl Z.min x l ∈ x :: l /\ forall y, y ∈ x :: l -> foldl Z.min x l <= y.
Proof.
  revert x. induction l as [|z l IH]; intros x; simpl.
  { split; [set_solver|]. intros y Hy. apply list_elem_of_singleton in Hy. lia. }
  destruct (IH (Z.min x z)) as [H1 H2]. split.
  - rewrite !elem_of_cons. apply elem_of_cons in H1 as [H1|H1]; [|auto]. rewrite H1.
    destruct (Z.min_spec x z) as [[_ E]|[_ E]]; rewrite E; auto.
  - intros y Hy. rewrite !elem_of_cons in Hy.
    destruct Hy as [->|[->|Hy]].
    + specialize (H2 (Z.min x z) ltac:(set_solver)). lia.
    + specialize (H2 (Z.min x z) ltac:(set_solver)). lia.
    + apply H2. set_solver.
Qed.

Lemma foldl_max_spec (x : Z) (l : list Z) :
  foldl Z.max x l ∈ x :: l /\ forall y, y ∈ x :: l -> y <= foldl Z.max x l.
Proof.
  revert x. induction l as [|z l IH]; intros x; simpl.
  { split; [set_solver|]. intros y Hy. apply list_elem_of_singleton in Hy. lia. }
  destruct (IH (Z.max x z)) as [H1 H2]. split.
  - rewrite !elem_of_cons. apply elem_of_cons in H1 as [H1|H1]; [|auto]. rewrite H1.
    destruct (Z.max_spec x z) as [[_ E]|[_ E]]; rewrite E; auto.
  - intros y Hy. rewrite !elem_of_cons in Hy.
    destruct Hy as [->|[->|Hy]].
    + specialize (H2 (Z.max x z) ltac:(set_solver)). lia.
    + specialize (H2 (Z.max x z) ltac:(set_solver)). lia.
    + apply H2. set_solver.
Qed.

Lemma py_min_spec (l : list Z) lo :
  py_min l = Some lo -> lo ∈ l /\ forall y, y ∈ l -> lo <= y.
Proof. destruct l as [|x l]; simpl; [done|]. intros [= <-]. apply foldl_min_spec. Qed.

Lemma py_max_spec (l : list Z) hi :
  py_max l = Some hi -> hi ∈ l /\ forall y, y ∈ l -> y <= hi.
Proof. destruct l as [|x l]; simpl; [done|]. intros [= <-]. apply foldl_max_spec. Qed.

Lemma scan_groups_nonempty (points : list point) (xdist ydist : Z) c :
  c ∈ scan_groups points xdist ydist -> exists x, x ∈ c.
Proof.
  revert c. apply (scan_groups_ind points xdist ydist (fun g => forall c, c ∈ g -> exists x, x ∈ c)).
  - intros c H. by apply elem_of_nil in H.
  - intros g pi pj IH _ _ _ c Hc. apply elem_of_join in Hc as [->|[Hc _]]; [|auto].
    exists pi. apply elem_of_join_group. by left.
Qed.

Lemma elem_of_map_snd (c : list point) p : p ∈ c -> p.2 ∈ map snd c.
Proof. intros H. apply list_elem_of_In, in_map, list_elem_of_In, H. Qed.

(** X13: in [breakpoint], [min(yy)] and [max(yy)] never raise on a block of
    [get_blocks]: each block gets a span [(scaffold, lo, hi)] whose ends
    are y values of the block and which contains every y of the block. *)
Theorem breakpoint_block_span (scaffold : string) (ord : order) (bs : list BedLine)
    (xdist ydist N : Z) c :
  c ∈ get_blocks ord bs xdist ydist N ->
  exists lo hi, block_span scaffold c = Some (scaffold, lo, hi) /\
    lo ∈ map snd c /\ hi ∈ map snd c /\ forall p, p ∈ c -> lo <= p.2 <= hi.
Proof.
  intros Hc. unfold get_blocks in Hc.
  pose proof Hc as Hc'. apply elem_of_synteny_scan in Hc' as (g0 & -> & Hg0 & _).
  destruct (scan_groups_nonempty _ _ _ _ Hg0) as [x Hx].
  rewrite <- elem_of_py_sort in Hx. apply elem_of_map_snd in Hx.
  unfold block_span.
  destruct (map snd (py_sort g0)) as [|y ys] eqn:Ey; [by apply elem_of_nil in Hx|].
  destruct (py_min_spec (y :: ys) (foldl Z.min y ys) eq_refl) as [Hlo1 Hlo2].
  destruct (py_max_spec (y :: ys) (foldl Z.max y ys) eq_refl) as [Hhi1 Hhi2].
  exists (foldl Z.min y ys), (foldl Z.max y ys). simpl. split; [done|].
  split; [done|]. split; [done|]. intros p Hp.
  apply elem_of_map_snd in Hp. rewrite Ey in Hp. split; [apply Hlo2|apply Hhi2]; done.
Qed.

(** X14: a block's range in [depth] raises exactly when the block has no
    gene or one of its genes is missing from the order; otherwise its ends
    are indices of genes of the block and every gene's index lies in it. *)
Theorem depth_range_spec (ord : order) (genes : list string) :
  (depth_range ord genes = None <-> genes = [] \/ exists g, g ∈ genes /\ ord !! g = None) /\
  (forall lo hi, depth_range ord genes = Some (lo, hi) ->
     (exists g s, g ∈ genes /\ ord !! g = Some (lo, s)) /\
     (exists g s, g ∈ genes /\ ord !! g = Some (hi, s)) /\
     (forall g i s, g ∈ genes -> ord !! g = Some (i, s) -> lo <= i <= hi)).
Proof.
  unfold depth_range. destruct (mapM (fun x => ord !! x) genes) as [q|] eqn:Em.
  - apply mapM_Some in Em.
    assert (Hq : forall i s, (i, s) ∈ q <-> exists g, g ∈ genes /\ ord !! g = Some (i, s)).
    { intros i s. clear -Em. induction Em as [|g y genes q Hg _ IH].
      - split; [intros H; by apply elem_of_nil in H|]. intros (g & H & _). by apply elem_of_nil in H.
      - rewrite elem_of_cons, IH. setoid_rewrite elem_of_cons. split.
        + intros [<-|(g' & ? & ?)]; eauto.
        + intros (g' & [->|Hg'] & Hs); [left; congruence|eauto]. }
    assert (Hm : forall g, g ∈ genes -> is_Some (ord !! g)).
    { clear -Em. induction Em as [|g y genes q Hg _ IH]; intros g' Hg'.
      - by apply elem_of_nil in Hg'.
      - apply elem_of_cons in Hg' as [->|Hg']; [by eexists|auto]. }
    assert (Hfst : forall i, i ∈ map fst q <-> exists g s, g ∈ genes /\ ord !! g = Some (i, s)).
    { intros i. rewrite list_elem_of_In, in_map_iff. split.
      - intros ([i' s] & <- & Hin). apply list_elem_of_In, Hq in Hin. simpl. naive_solver.
      - intros (g & s & Hg). exists (i, s). split; [done|]. apply list_elem_of_In, Hq. eauto. }
    destruct (map fst q) as [|y ys] eqn:Ey.
    { split; [|done]. split; [intros _; left|done].
      destruct q; [|done]. by apply Forall2_nil_inv_r in Em. }
    destruct (py_min_spec (y :: ys) (foldl Z.min y ys) eq_refl) as [Hlo1 Hlo2].
    destruct (py_max_spec (y :: ys) (foldl Z.max y ys) eq_refl) as [Hhi1 Hhi2].
    simpl. split.
    + split; [done|]. intros [->|(g & Hg & Hn)].
      * apply Forall2_nil_inv_l in Em. by subst q.
      * destruct (Hm g Hg) as [y' Hy']. congruence.
    + intros lo hi [= <- <-]. split; [by apply Hfst|]. split; [by apply Hfst|].
      intros g i s Hg Hs. assert (Hi : i ∈ y :: ys) by (apply Hfst; eauto).
      split; [apply Hlo2|apply Hhi2]; done.
  - apply mapM_None in Em. split; [|done]. split; [|done]. intros _. right.
    by apply Exists_exists in Em.
Qed.

(** ** Instances of the properties above *)

Lemma scan_self_one_side_witness :
  [(0, 1); (0, 2)] ∈ batch_scan (read_blast [bl "b" "a"; bl "a" "c"] ord_abc ord_abc true) 5 5 1 /\
  (0, 1) ∈ [(0, 1); (0, 2)] /\ (0, 1).1 <= (0, 1).2.
Proof.
  assert (Hc : [(0, 1); (0, 2)] ∈
    batch_scan (read_blast [bl "b" "a"; bl "a" "c"] ord_abc ord_abc true) 5 5 1)
    by (apply (bool_decide_unpack _); vm_compute; reflexivity).
  assert (Hp : (0, 1) ∈ [(0, 1); (0, 2)]) by (apply (bool_decide_unpack _); vm_compute; reflexivity).
  split; [exact Hc|]. split; [exact Hp|].
  exact (scan_self_one_side _ _ _ _ _ _ _ _ Hc Hp).
Defined.

Lemma synteny_scan_cluster_size_witness :
  [(0, 0); (1, 1); (2, 2)] ∈ synteny_scan [(0,0); (1,1); (2,2); (9,0); (10,1)] 5 5 2 /\
  NoDup [(0, 0); (1, 1); (2, 2)] /\
  2 <= Z.of_nat (length (remove_dups (map fst [(0, 0); (1, 1); (2, 2)]))) /\
  2 <= Z.of_nat (length (remove_dups (map snd [(0, 0); (1, 1); (2, 2)]))) /\
  2 <= Z.of_nat (length [(0, 0); (1, 1); (2, 2)]).
Proof.
  assert (Hc : [(0, 0); (1, 1); (2, 2)] ∈ synteny_scan [(0,0); (1,1); (2,2); (9,0); (10,1)] 5 5 2)
    by (apply (bool_decide_unpack _); vm_compute; reflexivity).
  split; [exact Hc|]. exact (synteny_scan_cluster_size _ _ _ _ _ Hc).
Defined.

Lemma read_blast_coords_witness :
  let b := {| query := "b"; subject := "a"; qseqid := "c1"; sseqid := "c1"; qi := 0; si := 1 |} in
  b ∈ read_blast [bl "b" "a"; bl "a" "c"] ord_abc ord_abc true /\
  ((ord_abc !! query b = Some (qi b, qseqid b) /\ ord_abc !! subject b = Some (si b, sseqid b)) \/
   (true = true /\ qi b < si b /\
    ord_abc !! query b = Some (si b, sseqid b) /\ ord_abc !! subject b = Some (qi b, qseqid b))).
Proof.
  intros b.
  assert (Hb : b ∈ read_blast [bl "b" "a"; bl "a" "c"] ord_abc ord_abc true)
    by (vm_compute; apply list_elem_of_here).
  split; [exact Hb|]. exact (read_blast_coords _ _ _ _ _ Hb).
Defined.

Lemma get_blocks_points_witness :
  [(0, 15); (1, 35)] ∈ get_blocks ord_ab [bed "a.1" 10 20; bed "b.1" 30 41] 5 50 2 /\
  (1, 35) ∈ [(0, 15); (1, 35)] /\
  exists b seqid, b ∈ [bed "a.1" 10 20; bed "b.1" 30 41] /\
    ord_ab !! rsplit_dot_head (accn b) = Some ((1, 35).1, seqid) /\
    (1, 35).2 = (bstart b + bend b) `div` 2 /\
    (bstart b <= bend b -> bstart b <= (1, 35).2 <= bend b).
Proof.
  assert (Hc : [(0, 15); (1, 35)] ∈ get_blocks ord_ab [bed "a.1" 10 20; bed "b.1" 30 41] 5 50 2)
    by (apply (bool_decide_unpack _); vm_compute; reflexivity).
  assert (Hp : (1, 35) ∈ [(0, 15); (1, 35)]) by (apply (bool_decide_unpack _); vm_compute; reflexivity).
  split; [exact Hc|]. split; [exact Hp|]. exact (get_blocks_points _ _ _ _ _ _ _ Hc Hp).
Defined.

Lemma breakpoint_block_span_witness :
  [(0, 15); (1, 35)] ∈ get_blocks ord_ab [bed "a.1" 10 20; bed "b.1" 30 41] 5 50 2 /\
  exists lo hi, block_span "scf1" [(0, 15); (1, 35)] = Some ("scf1"%string, lo, hi) /\
    lo ∈ map snd [(0, 15); (1, 35)] /\ hi ∈ map snd [(0, 15); (1, 35)] /\
    forall p, p ∈ [(0, 15); (1, 35)] -> lo <= p.2 <= hi.
Proof.
  assert (Hc : [(0, 15); (1, 35)] ∈ get_blocks ord_ab [bed "a.1" 10 20; bed "b.1" 30 41] 5 50 2)
    by (apply (bool_decide_unpack _); vm_compute; reflexivity).
  split; [exact Hc|]. exact (breakpoint_block_span "scf1" _ _ _ _ _ _ Hc).
Defined.

Lemma rsplit_dot_head_spec_witness :
  no_dot "1" /\ rsplit_dot_head (String.append "AT1G01010" (String "." "1")) = "AT1G01010".
Proof.
  assert (H : no_dot "1") by (apply (bool_decide_unpack _); vm_compute; reflexivity).
  split; [exact H|]. exact (proj1 (rsplit_dot_head_spec "AT1G01010" "1" "") H).
Defined.

(** ** More on the rows of [mcscan] *)

Lemma track_anchor_spec (bp : block_map) (gid : string) (t : list Z) :
  forall anchor, t <> [] -> (forall tid, tid ∈ t -> is_Some (bp !! tid)) ->
  exists a, track_anchor bp gid t anchor = Some (Some a) /\
    (a = "."%string <-> forall tid pairs, tid ∈ t -> bp !! tid = Some pairs ->
                        default "."%string (pairs !! gid) = "."%string) /\
    (a <> "."%string -> exists tid pairs, tid ∈ t /\ bp !! tid = Some pairs /\ pairs !! gid = Some a).
Proof.
  induction t as [|tid t IH]; intros anchor Hne Hin; [done|]. simpl.
  destruct (bp !! tid) as [pairs|] eqn:Eb.
  2: { destruct (Hin tid ltac:(set_solver)) as [? H]. congruence. }
  destruct (String.eqb_spec (default "." (pairs !! gid)) ".") as [Hd|Hd].
  - destruct t as [|tid' t'].
    + simpl. exists "."%string. split; [by rewrite Hd|].
      split; [|intros H; by destruct H]. split; [|intros _; reflexivity].
      intros _ tid0 pairs0 Ht0 Hp0. apply list_elem_of_singleton in Ht0 as ->. congruence.
    + destruct (IH (Some (default "." (pairs !! gid))) ltac:(done) ltac:(set_solver))
        as (a & Ha & Hdot & Hsrc).
      exists a. split; [done|]. split.
      * rewrite Hdot. split.
        -- intros H tid0 pairs0 Ht0 Hp0. apply elem_of_cons in Ht0 as [->|Ht0]; [congruence|eauto].
        -- intros H tid0 pairs0 Ht0 Hp0. apply (H tid0); [set_solver|done].
      * intros Hna. destruct (Hsrc Hna) as (tid0 & pairs0 & ? & ? & ?). exists tid0, pairs0. set_solver.
  - exists (default "." (pairs !! gid)). split; [done|]. split.
    + split; [done|]. intros H. apply (H tid pairs); [set_solver|done].
    + intros _. exists tid, pairs. split; [set_solver|]. split; [done|].
      destruct (pairs !! gid); simpl in *; [done|congruence].
Qed.

Lemma ascii_atom_idem (ascii : bool) (a : string) :
  let f := fun a => if ascii && negb (String.eqb a ".") then "x"%string else a in f (f a) = f a.
Proof.
  simpl. destruct ascii; simpl; [|done].
  destruct (String.eqb_spec a "."); simpl; [by rewrite e|done].
Qed.

(** X15: when every track is non-empty and names only known blocks, the
    row of a gene has one atom per track; an atom is ["."] exactly when no
    block of its track pairs the gene with anything but ["."]; with
    [--ascii] every atom is ["x"] or ["."], and without it every other atom
    is the partner the gene has in some block of the track. *)
Theorem row_atoms_spec (bp : block_map) (gid : string) (ascii : bool) (tracks : list (list Z))
    (anchor : option string) :
  (forall t, t ∈ tracks -> t <> [] /\ forall tid, tid ∈ t -> is_Some (bp !! tid)) ->
  exists atoms, row_atoms bp gid ascii tracks anchor = Some atoms /\
    length atoms = length tracks /\
    forall i t a, tracks !! i = Some t -> atoms !! i = Some a ->
      (a = "."%string <-> forall tid pairs, tid ∈ t -> bp !! tid = Some pairs ->
                          default "."%string (pairs !! gid) = "."%string) /\
      (ascii = true -> a = "."%string \/ a = "x"%string) /\
      (ascii = false -> a <> "."%string ->
         exists tid pairs, tid ∈ t /\ bp !! tid = Some pairs /\ pairs !! gid = Some a).
Proof.
  revert anchor. induction tracks as [|t ts IH]; intros anchor Htr; simpl.
  { exists []. split; [done|]. split; [done|]. intros i t a H. by rewrite lookup_nil in H. }
  destruct (Htr t ltac:(set_solver)) as [Hne Hin].
  destruct (track_anchor_spec bp gid t anchor Hne Hin) as (a & Ha & Hdot & Hsrc).
  rewrite Ha.
  set (a' := if ascii && negb (String.eqb a ".") then "x"%string else a).
  destruct (IH (Some a') ltac:(intros t' Ht'; apply Htr; set_solver)) as (atoms & Hr & Hl & Hat).
  rewrite Hr. exists (a' :: atoms). split; [done|]. split; [simpl; by rewrite Hl|].
  intros [|i] t0 a0 Ht0 Ha0; simpl in Ht0, Ha0; [|eauto].
  injection Ht0 as <-. injection Ha0 as <-. subst a'.
  destruct ascii; simpl.
  - destruct (String.eqb_spec a "."); simpl.
    + split; [by rewrite <- Hdot|]. split; [auto|done].
    + split; [split; [done|intros H; by apply Hdot in H]|]. split; [auto|done].
  - split; [done|]. split; [done|]. auto.
Qed.

(** X16: a track with no block repeats the atom of the track before it
    (the loop variable [anchor] keeps its value), and as the first track of
    the first row, with [anchor] still unbound, it raises. *)
Theorem row_atoms_empty_track (bp : block_map) (gid : string) (ascii : bool)
    (tracks : list (list Z)) (anchor : option string) atoms i :
  (row_atoms bp gid ascii ([] :: tracks) None = None) /\
  (row_atoms bp gid ascii tracks anchor = Some atoms -> tracks !! S i = Some [] ->
   atoms !! S i = atoms !! i).
Proof.
  split; [done|].
  revert anchor atoms i. induction tracks as [|t ts IH]; intros anchor atoms i Hr Hi; [done|].
  simpl in Hr. destruct (track_anchor bp gid t anchor) as [[a|]|]; [|done|done].
  set (a' := if ascii && negb (String.eqb a ".") then "x"%string else a) in Hr.
  destruct (row_atoms bp gid ascii ts (Some a')) as [atoms'|] eqn:Er; [|done].
  injection Hr as <-. destruct i as [|j].
  - simpl in Hi. destruct ts as [|t' ts']; [done|]. simpl in Hi. injection Hi as ->.
    simpl in Er.
    destruct (row_atoms bp gid ascii ts' _) as [atoms''|]; [|done].
    injection Er as <-. simpl. f_equal. apply (ascii_atom_idem ascii a).
  - simpl. apply (IH (Some a')); [done|]. done.
Qed.

(** ** More on [synteny_liftover] and [liftover] *)

Lemma np_shape_uniform (points : list (list Z)) (k : nat) :
  points <> [] -> Forall (fun r => length r = k) points -> np_shape points !! 1%nat = Some k.
Proof.
  intros Hne Hlen. destruct points as [|r rs]; [done|]. unfold np_shape.
  assert (Hall : forallb (fun r' => Nat.eqb (length r') (length r)) (r :: rs) = true).
  { apply forallb_forall. intros r' Hr'. apply Nat.eqb_eq.
    rewrite <- list_elem_of_In in Hr'. rewrite Forall_forall in Hlen.
    rewrite (Hlen r' Hr'), (Hlen r); [done|left]. }
  rewrite Hall. simpl. rewrite Forall_cons in Hlen. by destruct Hlen as [-> _].
Qed.

Lemma synteny_liftover_uniform (points : list (list Z)) (anchors : list point) (dist : Z) (k : nat) :
  points <> [] -> (2 <= k)%nat -> Forall (fun r => length r = k) points ->
  synteny_liftover points anchors dist =
  Some (filter (fun r => Exists (fun a => l1_dist a (row_point r) < dist) anchors) points).
Proof.
  intros Hne Hk Hlen. unfold synteny_liftover.
  rewrite (np_shape_uniform points k Hne Hlen). destruct (Nat.ltb_spec k 2); [lia|].
  destruct (Nat.ltb_spec 2 k).
  - f_equal. apply emit_near_filter, row_point_take.
  - rewrite <- (map_id points) at 2. f_equal. by apply emit_near_filter.
Qed.


Lemma row_point_point_row (p : point) : row_point (point_row p) = p.
Proof. by destruct p. Qed.

Lemma liftover_loop_spec (all_hits all_anchors : gmap chr_pair (list point)) (dist : Z)
    (keys : list chr_pair) :
  exists out, liftover_loop all_hits all_anchors dist keys = Some out /\
    forall r, r ∈ out <-> exists k p a, k ∈ keys /\ p ∈ default [] (all_hits !! k) /\
      a ∈ default [] (all_anchors !! k) /\ l1_dist a p < dist /\ r = point_row p.
Proof.
  induction keys as [|k keys (out & Hout & Hr)]; simpl.
  { exists []. split; [done|]. intros r. split; [intros H; by apply elem_of_nil in H|].
    intros (k & p & a & Hk & _). by apply elem_of_nil in Hk. }
  rewrite Hout. rewrite length_map.
  destruct (default [] (all_hits !! k)) as [|h hs] eqn:Eh.
  - simpl. exists out. split; [done|]. intros r. rewrite Hr. setoid_rewrite elem_of_cons.
    split; [naive_solver|].
    intros (k' & p & a & [->|Hk] & Hp & Ha & Hd & ->); [|naive_solver].
    rewrite Eh in Hp. by apply elem_of_nil in Hp.
  - assert (E0 : Nat.eqb (length (h :: hs)) 0 = false) by done. rewrite E0.
    rewrite (synteny_liftover_uniform _ _ dist 2); [|done|lia|].
    2: { apply Forall_forall. intros r Hr'. apply list_elem_of_In, in_map_iff in Hr' as (p & <- & _).
         done. }
    eexists. split; [reflexivity|]. intros r. rewrite <- Eh.
    rewrite elem_of_app, list_elem_of_filter, Hr, Exists_exists. setoid_rewrite elem_of_cons.
    split.
    + intros [[(a & Ha & Hd) Hrm]|H]; [|naive_solver].
      apply list_elem_of_In, in_map_iff in Hrm as (p & <- & Hp). apply list_elem_of_In in Hp.
      rewrite row_point_point_row in Hd.
      exists k, p, a. split; [by left|]. done.
    + intros (k' & p & a & [->|Hk] & Hp & Ha & Hd & ->).
      * left. split.
        -- exists a. rewrite row_point_point_row. done.
        -- apply list_elem_of_In, in_map, list_elem_of_In. done.
      * right. exists k', p, a. done.
Qed.

Lemma liftover_pairs_members (all_hits all_anchors : gmap chr_pair (list point)) (dist : Z) :
  exists out, liftover_pairs all_hits all_anchors dist = Some out /\
    forall r, r ∈ out <-> exists (k : chr_pair) p a, p ∈ default [] (all_hits !! k) /\
      a ∈ default [] (all_anchors !! k) /\ l1_dist a p < dist /\ r = point_row p.
Proof.
  destruct (liftover_loop_spec all_hits all_anchors dist
              (merge_sort chr_pair_le (map fst (map_to_list all_anchors)))) as (out & Hout & Hr).
  exists out. split; [done|]. intros r. rewrite Hr. split; [naive_solver|].
  intros (k & p & a & Hp & Ha & Hd & ->). exists k, p, a. split; [|done].
  rewrite (merge_sort_Permutation chr_pair_le).
  destruct (all_anchors !! k) as [l|] eqn:Ek; [|by apply elem_of_nil in Ha].
  apply list_elem_of_In, in_map_iff. exists (k, l). split; [done|].
  apply list_elem_of_In, elem_of_map_to_list. done.
Qed.


(** ** More on the blocks of [mcscan] *)

Lemma ss_head_le (x : Z) (l : list Z) :
  StronglySorted Z.le (x :: l) -> forall z, z ∈ x :: l -> x <= z.
Proof.
  intros Hs z Hz. apply StronglySorted_inv in Hs as [_ Hall].
  apply elem_of_cons in Hz as [->|Hz]; [lia|]. rewrite Forall_forall in Hall.
  by apply Hall.
Qed.

Lemma ss_last_ge (l : list Z) (y : Z) :
  StronglySorted Z.le l -> last l = Some y -> forall z, z ∈ l -> z <= y.
Proof.
  induction l as [|x l IH]; intros Hs Hl z Hz; [by apply elem_of_nil in Hz|].
  apply StronglySorted_inv in Hs as [Hs Hall]. destruct l as [|x' l'].
  - simpl in Hl. injection Hl as <-. apply list_elem_of_singleton in Hz. lia.
  - assert (Hl' : last (x' :: l') = Some y) by (rewrite <- Hl; done).
    apply elem_of_cons in Hz as [->|Hz]; [|by apply IH].
    rewrite Forall_forall in Hall. apply Hall, (last_Some_elem_of _ _ Hl').
Qed.

Lemma mapM_lookup_facts (ord : order) (genes : list string) qs :
  mapM (fun x => ord !! x) genes = Some qs ->
  (forall i sq, (i, sq) ∈ qs <-> exists g, g ∈ genes /\ ord !! g = Some (i, sq)) /\
  Forall (fun g => is_Some (ord !! g)) genes /\ length qs = length genes.
Proof.
  intros Em. apply mapM_Some in Em. split; [|split].
  - intros i sq. clear -Em. induction Em as [|g y genes q Hg _ IH].
    + split; [intros H; by apply elem_of_nil in H|]. intros (g & H & _). by apply elem_of_nil in H.
    + rewrite elem_of_cons, IH. setoid_rewrite elem_of_cons. split.
      * intros [<-|(g' & ? & ?)]; eauto.
      * intros (g' & [->|Hg'] & Hs); [left; congruence|eauto].
  - clear -Em. induction Em as [|g y genes q Hg _ IH]; constructor; [by eexists|done].
  - symmetry. by apply Forall2_length in Em.
Qed.

Lemma zip_dict_foldl (q s : list string) :
  forall (m : gmap string string) g,
  is_Some (foldl (fun m '(k, v) => <[k := v]> m) m (zip q s) !! g) -> is_Some (m !! g) \/ g ∈ q.
Proof.
  revert s. induction q as [|a q IH]; intros s m g Hg; destruct s as [|b s]; simpl in Hg; auto.
  destruct (IH s _ g Hg) as [Hm|Hq]; [|right; set_solver].
  destruct (decide (g = a)) as [->|Hne]; [right; set_solver|].
  rewrite lookup_insert_ne in Hm by congruence. auto.
Qed.

Lemma zip_dict_keys (q s : list string) g : is_Some (zip_dict q s !! g) -> g ∈ q.
Proof.
  intros Hg. destruct (zip_dict_foldl q s ∅ g Hg) as [H|H]; [|done].
  rewrite lookup_empty in H. by apply is_Some_None in H.
Qed.

(** X19: a block range built by [mcscan] reads the side of the block that
    is on the bed, chosen by its first gene; all genes of that side are on
    the bed, the range spans from the smallest to the largest of their
    indices (both attained), its score is the number of genes of the side,
    its id the block's number, and the block's pairs are keyed by genes of
    that side. *)
Theorem mcscan_block_range (ord : order) (i : Z) (q s : list string) pairs r :
  mcscan_block ord i q s = Some (pairs, r) ->
  exists q0 q' side, q = q0 :: q' /\
    side = match ord !! q0 with None => s | Some _ => q end /\
    Forall (fun g => is_Some (ord !! g)) side /\
    seqid r = "0"%string /\ id_ r = i /\ score r = Z.of_nat (length side) /\
    start r <= end_ r /\
    (exists g sq, g ∈ side /\ ord !! g = Some (start r, sq)) /\
    (exists g sq, g ∈ side /\ ord !! g = Some (end_ r, sq)) /\
    (forall g j sq, g ∈ side -> ord !! g = Some (j, sq) -> start r <= j <= end_ r) /\
    (forall g, is_Some (pairs !! g) -> g ∈ side).
Proof.
  unfold mcscan_block. destruct q as [|q0 q']; [done|].
  set (side := match ord !! q0 with None => s | Some _ => q0 :: q' end).
  set (other := match ord !! q0 with None => q0 :: q' | Some _ => s end).
  assert (E : (match ord !! q0 with None => (s, q0 :: q') | Some _ => (q0 :: q', s) end) = (side, other))
    by (subst side other; by destruct (ord !! q0)).
  rewrite E. intros H.
  destruct (mapM (fun x => ord !! x) side) as [qs|] eqn:Em; [|done].
  destruct (mapM_lookup_facts ord side qs Em) as (Hq & Hall & Hlen).
  pose proof (StronglySorted_merge_sort Z.le (map fst qs)) as Hss.
  pose proof (merge_sort_Permutation Z.le (map fst qs)) as Hperm.
  destruct (merge_sort Z.le (map fst qs)) as [|lo rest] eqn:Eidx; [done|].
  destruct (last (lo :: rest)) as [hi|] eqn:El; [|done].
  injection H as <- <-. simpl.
  assert (Hfst : forall j, j ∈ lo :: rest <-> exists g sq, g ∈ side /\ ord !! g = Some (j, sq)).
  { intros j. rewrite Hperm, list_elem_of_In, in_map_iff. split.
    - intros ([j' sq] & <- & Hin). apply list_elem_of_In, Hq in Hin. simpl. naive_solver.
    - intros (g & sq & Hg). exists (j, sq). split; [done|]. apply list_elem_of_In, Hq. eauto. }
  exists q0, q', side. split; [done|]. split; [done|]. split; [done|].
  split; [done|]. split; [done|]. split; [done|].
  split; [apply (ss_last_ge _ _ Hss El); set_solver|].
  split; [apply Hfst; set_solver|].
  split; [apply Hfst, (last_Some_elem_of _ _ El)|].
  split.
  - intros g j sq Hg Hj. assert (Hjin : j ∈ lo :: rest) by (apply Hfst; eauto).
    split; [by apply (ss_head_le lo rest Hss)|by apply (ss_last_ge _ _ Hss El)].
  - intros g Hg. by apply zip_dict_keys in Hg.
Qed.

(** X20: building a block range raises exactly when the block's query side
    is empty, or its first gene is on the bed but another of its genes is
    not, or its first gene is not on the bed and the subject side is empty
    or has a gene that is not on the bed either: only the first gene picks
    the side, and no gene is skipped. *)
Theorem mcscan_block_raises (ord : order) (i : Z) (q s : list string) :
  mcscan_block ord i q s = None <->
  q = [] \/
  (exists q0 q', q = q0 :: q' /\ is_Some (ord !! q0) /\ exists g, g ∈ q /\ ord !! g = None) \/
  (exists q0 q', q = q0 :: q' /\ ord !! q0 = None /\ (s = [] \/ exists g, g ∈ s /\ ord !! g = None)).
Proof.
  unfold mcscan_block. destruct q as [|q0 q'].
  { split; [by left|done]. }
  assert (Hside : forall side other : list string,
    (match mapM (fun x => ord !! x) side with
     | None => None
     | Some qs =>
         match merge_sort Z.le (map fst qs) with
         | [] => None
         | lo :: l =>
             match last (lo :: l) with
             | Some hi =>
                 Some (zip_dict side other,
                       {| seqid := "0"; start := lo; end_ := hi;
                          score := Z.of_nat (length side); id_ := i |})
             | None => None
             end
         end
     end = None) <-> side = [] \/ exists g, g ∈ side /\ ord !! g = None).
  { intros side other. destruct (mapM (fun x => ord !! x) side) as [qs|] eqn:Em.
    - destruct (mapM_lookup_facts ord side qs Em) as (_ & Hall & Hlen).
      pose proof (merge_sort_Permutation Z.le (map fst qs)) as Hperm.
      destruct (merge_sort Z.le (map fst qs)) as [|lo rest] eqn:Eidx.
      + apply Permutation_length in Hperm. rewrite length_map in Hperm. simpl in Hperm.
        destruct side; [|simpl in Hlen; lia]. split; [by left|done].
      + destruct (last (lo :: rest)) as [hi|] eqn:El; [|by apply last_None in El].
        split; [done|]. intros [->|(g & Hg & Hn)].
        * destruct qs; [done|simpl in Hlen; lia].
        * rewrite Forall_forall in Hall. destruct (Hall g Hg) as [? Hs]. congruence.
    - split; [intros _; right|done]. apply mapM_None, Exists_exists in Em. done. }
  destruct (ord !! q0) eqn:Eq0; cbv beta iota zeta.
  - rewrite (Hside (q0 :: q') s). split.
    + intros [H|H]; [done|]. right. left. exists q0, q'. split; [done|]. split; [by eexists|done].
    + intros [H|[(q1 & q1' & [= <- <-] & _ & H)|(q1 & q1' & [= <- <-] & Hn & _)]]; [done|by right|congruence].
  - rewrite (Hside s (q0 :: q')). split.
    + intros H. right. right. exists q0, q'. done.
    + intros [H|[(q1 & q1' & [= <- <-] & Hs & _)|(q1 & q1' & [= <- <-] & _ & H)]]; [done| |done].
      destruct Hs as [? Hs]. congruence.
Qed.

Lemma row_atoms_spec_witness :
  (forall t, t ∈ [[0]; [1; 0]] -> t <> [] /\ forall tid, tid ∈ t -> is_Some (bp_test !! tid)) /\
  exists atoms, row_atoms bp_test "g1" false [[0]; [1; 0]] None = Some atoms /\
    length atoms = length [[0]; [1; 0]] /\
    forall i t a, [[0]; [1; 0]] !! i = Some t -> atoms !! i = Some a ->
      (a = "."%string <-> forall tid pairs, tid ∈ t -> bp_test !! tid = Some pairs ->
                          default "."%string (pairs !! "g1"%string) = "."%string) /\
      (false = true -> a = "."%string \/ a = "x"%string) /\
      (false = false -> a <> "."%string ->
         exists tid pairs, tid ∈ t /\ bp_test !! tid = Some pairs /\ pairs !! "g1"%string = Some a).
Proof.
  assert (H : forall t, t ∈ [[0]; [1; 0]] -> t <> [] /\
                forall tid, tid ∈ t -> is_Some (bp_test !! tid)).
  { intros t Ht. rewrite !elem_of_cons in Ht.
    destruct Ht as [->|[->|Ht]]; [| |by apply elem_of_nil in Ht].
    all: split; [done|]; intros tid Htid; rewrite !elem_of_cons in Htid.
    all: repeat (destruct Htid as [->|Htid]; [eexists; reflexivity|]).
    all: by apply elem_of_nil in Htid. }
  split; [exact H|]. exact (row_atoms_spec bp_test "g1" false [[0]; [1; 0]] None H).
Defined.

Lemma mcscan_block_range_witness :
  exists pairs r, mcscan_block ord_abc 7 ["z"; "y"] ["c"; "a"] = Some (pairs, r) /\
  exists q0 q' side, ["z"; "y"]%string = q0 :: q' /\
    side = match ord_abc !! q0 with None => ["c"; "a"]%string | Some _ => ["z"; "y"]%string end /\
    Forall (fun g => is_Some (ord_abc !! g)) side /\
    seqid r = "0"%string /\ id_ r = 7 /\ score r = Z.of_nat (length side) /\
    start r <= end_ r /\
    (exists g sq, g ∈ side /\ ord_abc !! g = Some (start r, sq)) /\
    (exists g sq, g ∈ side /\ ord_abc !! g = Some (end_ r, sq)) /\
    (forall g j sq, g ∈ side -> ord_abc !! g = Some (j, sq) -> start r <= j <= end_ r) /\
    (forall g, is_Some (pairs !! g) -> g ∈ side).
Proof.
  eexists. eexists.
  assert (E : mcscan_block ord_abc 7 ["z"; "y"] ["c"; "a"] =
              Some (zip_dict ["c"; "a"] ["z"; "y"],
                    {| seqid := "0"; start := 0; end_ := 2; score := 2; id_ := 7 |}))
    by (vm_compute; reflexivity).
  split; [exact E|]. exact (mcscan_block_range _ _ _ _ _ _ E).
Defined.

(** ** Duplicated points, and the pipelines of [scan] and [liftover] *)

Lemma occurrences_cons_ne p r (l : list point) :
  r <> p -> occurrences p (r :: l) = occurrences p l.
Proof. intros H. unfold occurrences. rewrite filter_cons_False; done. Qed.

Lemma occurrences_cons_eq p (l : list point) :
  occurrences p (p :: l) = S (occurrences p l).
Proof. unfold occurrences. rewrite filter_cons_True; done. Qed.

Lemma occurrences_elem_of p (l : list point) : (1 <= occurrences p l)%nat -> p ∈ l.
Proof.
  induction l as [|r l IH]; [unfold occurrences; simpl; lia|]. intros H.
  destruct (decide (r = p)) as [->|Hne]; [by left|].
  rewrite occurrences_cons_ne in H by done. right. auto.
Qed.

Lemma scan_all_dup (xdist ydist : Z) (p : point) rest : forall seen g,
  0 <= xdist -> 0 <= ydist ->
  StronglySorted xge seen -> StronglySorted xle rest ->
  (forall s r, s ∈ seen -> r ∈ rest -> s.1 <= r.1) ->
  (p ∈ seen /\ p ∈ rest) \/ (2 <= occurrences p rest)%nat ->
  same (scan_all xdist ydist g seen rest) p p.
Proof.
  induction rest as [|r rest IH]; intros seen g Hx Hy Hseen Hrest Hsr Hp.
  { destruct Hp as [[_ H]|H]; [by apply elem_of_nil in H|unfold occurrences in H; simpl in H; lia]. }
  apply StronglySorted_inv in Hrest as [Hrest Hf].
  rewrite Forall_forall in Hf. simpl.
  assert (Hr : forall s, s ∈ seen -> s.1 <= r.1) by (intros; apply Hsr; set_solver).
  assert (Hseen' : StronglySorted xge (r :: seen)).
  { constructor; [done|]. apply Forall_forall. intros s Hs. apply Hr, Hs. }
  assert (Hsr' : forall s t, s ∈ r :: seen -> t ∈ rest -> s.1 <= t.1).
  { intros s t Hs Ht. apply elem_of_cons in Hs as [->|Hs]; [apply Hf, Ht|apply Hsr; set_solver]. }
  destruct (decide (r = p)) as [->|Hne].
  - destruct Hp as [[Hps _]|Hocc].
    + apply scan_all_mono. apply scan_back_joins; [done|done|done|unfold close; lia].
    + rewrite occurrences_cons_eq in Hocc.
      apply IH; [done|done|done|done|done|]. left. split; [by left|].
      apply occurrences_elem_of. lia.
  - apply IH; [done|done|done|done|done|].
    destruct Hp as [[Hps Hpr]|Hocc].
    + left. split; [by right|]. apply elem_of_cons in Hpr as [->|Hpr]; [done|done].
    + right. by rewrite occurrences_cons_ne in Hocc.
Qed.

Lemma _score_pos (c : list point) x : x ∈ c -> 1 <= _score c.
Proof.
  intros Hx. unfold _score.
  assert (H1 : x.1 ∈ remove_dups (map fst c)).
  { apply elem_of_remove_dups, list_elem_of_In, in_map, list_elem_of_In, Hx. }
  assert (H2 : x.2 ∈ remove_dups (map snd c)).
  { apply elem_of_remove_dups, list_elem_of_In, in_map, list_elem_of_In, Hx. }
  destruct (remove_dups (map fst c)); [by apply elem_of_nil in H1|].
  destruct (remove_dups (map snd c)); [by apply elem_of_nil in H2|].
  simpl. lia.
Qed.

(** X21: with non-negative bounds, a point given twice is joined with
    itself ([points[i]] and [points[j]] are equal), so it always ends up
    in a group, even with no other point near it, and in a returned
    cluster when [N <= 1]. *)
Theorem synteny_scan_duplicate (points : list point) (xdist ydist N : Z) p :
  0 <= xdist -> 0 <= ydist -> (2 <= occurrences p points)%nat -> N <= 1 ->
  exists c, c ∈ synteny_scan points xdist ydist N /\ p ∈ c.
Proof.
  intros Hx Hy Hocc HN.
  assert (Hs : same (scan_groups points xdist ydist) p p).
  { unfold scan_groups. apply scan_all_dup; [done|done|constructor| | |].
    - apply ss_xle, py_sort_sorted.
    - intros s r Hs. by apply elem_of_nil in Hs.
    - right. by rewrite (occurrences_perm p _ _ (py_sort_perm points)). }
  destruct Hs as (g0 & Hg0 & Hp & _).
  exists (py_sort g0). split; [|by apply elem_of_py_sort].
  apply elem_of_synteny_scan. exists g0. split; [done|]. split; [done|].
  pose proof (_score_pos g0 p Hp). lia.
Qed.

Lemma synteny_scan_duplicate_witness :
  (0 <= 1 /\ 0 <= 1 /\ (2 <= occurrences (5, 5)%Z [(0, 0); (5, 5); (9, 9); (5, 5)]%Z)%nat /\ 1 <= 1) /\
  exists c, c ∈ synteny_scan [(0, 0); (5, 5); (9, 9); (5, 5)] 1 1 1 /\ ((5, 5) : point) ∈ c.
Proof.
  assert (H : (2 <= occurrences (5, 5)%Z [(0, 0); (5, 5); (9, 9); (5, 5)]%Z)%nat)
    by (vm_compute; lia).
  split; [split; [lia|split; [lia|split; [exact H|lia]]]|].
  apply synteny_scan_duplicate; [lia|lia|exact H|lia].
Defined.

Lemma read_blast_rows_names (qorder sorder : order) (is_self : bool) rows :
  forall seen b, b ∈ read_blast_rows qorder sorder is_self seen rows ->
  exists r, r ∈ rows /\ query r = query b /\ subject r = subject b.
Proof.
  induction rows as [|r rows IH]; intros seen b Hb; simpl in Hb.
  { by apply elem_of_nil in Hb. }
  destruct (qorder !! query r) as [[qi0 q]|]; [|destruct (IH _ _ Hb) as (r' & ? & ?); exists r'; set_solver].
  destruct (sorder !! subject r) as [[si0 s]|]; [|destruct (IH _ _ Hb) as (r' & ? & ?); exists r'; set_solver].
  case_bool_decide; [destruct (IH _ _ Hb) as (r' & ? & ?); exists r'; set_solver|].
  destruct (is_self && Z.ltb si0 qi0); simpl in Hb;
    apply elem_of_cons in Hb as [->|Hb]; [exists r; set_solver| |exists r; set_solver|].
  all: destruct (IH _ _ Hb) as (r' & ? & ?); exists r'; set_solver.
Qed.

(** X22: every anchor [(qi, si)] that [scan] writes comes from a row of the
    blast file whose query is at index [qi] of the query order and whose
    subject is at index [si] of the subject order, or, only in a self
    comparison and with [qi < si], the other way round. *)
Theorem scan_anchor_source (rows : list BlastLine) (qorder sorder : order) (is_self : bool)
    (xdist ydist N : Z) c p :
  c ∈ batch_scan (read_blast rows qorder sorder is_self) xdist ydist N -> p ∈ c ->
  exists r q s, r ∈ rows /\
    ((qorder !! query r = Some (p.1, q) /\ sorder !! subject r = Some (p.2, s)) \/
     (is_self = true /\ p.1 < p.2 /\
      qorder !! query r = Some (p.2, s) /\ sorder !! subject r = Some (p.1, q))).
Proof.
  intros Hc Hp. apply elem_of_batch_scan_pair in Hc as (k & Hc).
  apply elem_of_synteny_scan in Hc as (g0 & -> & Hg0 & _).
  rewrite elem_of_py_sort in Hp.
  pose proof (scan_groups_members _ _ _ _ _ Hg0 Hp) as Hm.
  apply list_elem_of_In, in_map_iff in Hm as (b & <- & Hb).
  apply list_elem_of_In, list_elem_of_filter in Hb as [_ Hb].
  destruct (read_blast_rows_names _ _ _ _ _ _ Hb) as (r & Hr & Hq & Hs).
  destruct (read_blast_rows_coords _ _ _ _ _ _ Hb) as [[H1 H2]|(Hself & Hlt & H1 & H2)].
  - exists r, (qseqid b), (sseqid b). split; [done|]. left. rewrite Hq, Hs. done.
  - exists r, (qseqid b), (sseqid b). split; [done|]. right. rewrite Hq, Hs. done.
Qed.

Lemma scan_anchor_source_witness :
  [(0, 1); (0, 2)] ∈ batch_scan (read_blast [bl "b" "a"; bl "a" "c"] ord_abc ord_abc true) 5 5 1 /\
  (0, 1) ∈ [(0, 1); (0, 2)] /\
  exists r q s, r ∈ [bl "b" "a"; bl "a" "c"] /\
    ((ord_abc !! query r = Some ((0, 1).1, q) /\ ord_abc !! subject r = Some ((0, 1).2, s)) \/
     (true = true /\ (0, 1).1 < (0, 1).2 /\
      ord_abc !! query r = Some ((0, 1).2, s) /\ ord_abc !! subject r = Some ((0, 1).1, q))).
Proof.
  assert (Hc : [(0, 1); (0, 2)] ∈
    batch_scan (read_blast [bl "b" "a"; bl "a" "c"] ord_abc ord_abc true) 5 5 1)
    by (apply (bool_decide_unpack _); vm_compute; reflexivity).
  assert (Hp : (0, 1) ∈ [(0, 1); (0, 2)]) by (apply (bool_decide_unpack _); vm_compute; reflexivity).
  split; [exact Hc|]. split; [exact Hp|].
  exact (scan_anchor_source _ _ _ _ _ _ _ _ _ Hc Hp).
Defined.

(** X23: [liftover] raises exactly when [read_anchors] does; otherwise it
    lifts exactly the coordinates [(qi, si)] of the records of [read_blast]
    that lie at L1 distance below [dist] from an anchor, read from a
    non-comment line of the anchor file, with the same pair of seqids. *)
Theorem liftover_pipeline (rows : list BlastLine) (anchor_rows : list string)
    (qorder sorder : order) (is_self : bool) (dist : Z) :
  (liftover_run rows anchor_rows qorder sorder is_self dist = None <->
   exists row, row ∈ anchor_rows /\ anchor_bad row) /\
  (forall out, liftover_run rows anchor_rows qorder sorder is_self dist = Some out ->
   forall r, r ∈ out <->
     exists b anc line ga gb q s, b ∈ read_blast rows qorder sorder is_self /\
       line ∈ anchor_rows /\ ~ anchor_comment line /\ py_split line = [ga; gb] /\
       qorder !! ga = Some (anc.1, q) /\ sorder !! gb = Some (anc.2, s) /\
       (qseqid b, sseqid b) = (q, s) /\ l1_dist anc (qi b, si b) < dist /\
       r = [qi b; si b]).
Proof.
  unfold liftover_run. destruct (read_anchors anchor_rows qorder sorder) as [m|] eqn:Em.
  - destruct (liftover_pairs_members (group_hits (read_blast rows qorder sorder is_self)) m dist)
      as (out & Hout & Hr).
    split.
    + rewrite <- (read_anchors_rows_none qorder sorder anchor_rows ∅). unfold read_anchors in Em.
      rewrite Hout, Em. done.
    + intros out' Hout' r. rewrite Hout in Hout'. injection Hout' as <-. rewrite Hr.
      setoid_rewrite group_hits_default.
      setoid_rewrite (read_anchors_rows_members qorder sorder anchor_rows ∅ m Em).
      setoid_rewrite lookup_empty. split.
      * intros (k & pt & a & Hpt & [Ha|Ha] & Hd & ->); [by apply elem_of_nil in Ha|].
        destruct Ha as (line & ga & gb & q & s & Hl & Hnc & Hsp & Hqa & Hsb & ->).
        apply list_elem_of_In, in_map_iff in Hpt as (b & <- & Hb).
        apply list_elem_of_In, list_elem_of_filter in Hb as [Hk Hb].
        exists b, a, line, ga, gb, q, s. done.
      * intros (b & anc & line & ga & gb & q & s & Hb & Hl & Hnc & Hsp & Hqa & Hsb & Hk & Hd & ->).
        exists (q, s), (qi b, si b), anc.
        split; [|split; [right; exists line, ga, gb, q, s; done|done]].
        apply list_elem_of_In, in_map_iff. exists b. split; [done|].
        apply list_elem_of_In, list_elem_of_filter. done.
  - split; [|done]. split; [|done]. intros _.
    by apply (read_anchors_rows_none qorder sorder anchor_rows ∅).
Qed.

(** ** The chaining loop of [mcscan] *)

Lemma chain_tracks_bound (k : nat) : forall ranges,
  (length (chain_tracks k ranges) <= k)%nat /\
  (chain_tracks k ranges = [] <-> ranges = [] \/ k = 0%nat).
Proof.
  induction k as [|k IH]; intros ranges.
  { simpl. split; [lia|]. split; [intros _; by right|done]. }
  destruct ranges as [|r rs]; [simpl; split; [lia|split; [intros _; by left|done]]|].
  cbn [chain_tracks]. destruct (range_chain (r :: rs)) as [selected sc].
  match goal with |- context [chain_tracks k ?l] => destruct (IH l) as [Hl _] end.
  cbn [length]. split; [lia|]. split; [done|]. intros [H|H]; done.
Qed.

(** X24: the chaining loop of [mcscan] stops after [--iter] chains at
    most, and it outputs no track exactly when there is no block range or
    [--iter] is not positive, whatever [range_chain] selects. *)
Theorem mcscan_tracks_iter (ranges : list Range) (iter : Z) :
  (Z.of_nat (length (mcscan_tracks ranges iter)) <= Z.max 0 iter) /\
  (mcscan_tracks ranges iter = [] <-> ranges = [] \/ iter <= 0).
Proof.
  unfold mcscan_tracks. destruct (chain_tracks_bound (Z.to_nat iter) ranges) as [Hl He].
  split; [lia|]. rewrite He. split; intros [H|H]; [by left|right; lia|by left|right; lia].
Qed.
